(** * An n-gram language model: preprocessing, counting and smoothing

    Shallow embedding of [Assignement_1_Language_modeling.ipynb]:
    the preprocessing functions [add_sentence_tokens], [replace_singletons]
    and [preprocess], and the class [LanguageModel] with its methods
    [__init__], [_smooth] and [_create_model].

    Conventions.
    - A Python [str] is a [string], its characters taken among the 256 codes
      of [ascii]; a token is a [string]; an n-gram (a tuple of tokens) is a
      [list string].
    - A Python [int] is a [Z]; a count held by a frequency table is a [nat].
    - A probability (a Python [float] obtained by a true division) is the
      exact rational quotient, a [Q].
    - A [dict] is a [gmap]; [nltk.FreqDist] is a [gmap] from samples to
      counts, read with default zero.
    - A call that can raise returns a [result]. *)

From Stdlib Require Import ZArith QArith Lqa String Ascii OrderedTypeEx.
From stdpp Require Import gmap strings list fin_maps.

Local Open Scope string_scope.
Local Open Scope list_scope.
Local Open Scope Z_scope.

(** ** Exceptions *)

(** [ZeroDivisionError] is raised by [/]; [ValueError] by [itertools.tee]
    (inside [nltk.ngrams]) and [itertools.product] on a negative count.
    [ConfigurationError] is the error the specification names; no path of the
    code raises it. *)
Inductive exn : Set :=
| ZeroDivisionError
| ValueError
| ConfigurationError.

Inductive result (A : Type) : Type :=
| Ok (a : A)
| Err (e : exn).
Arguments Ok {A} a.
Arguments Err {A} e.

Definition bind {A B} (r : result A) (k : A → result B) : result B :=
  match r with
  | Ok a => k a
  | Err e => Err e
  end.

Notation "x ←! r ; k" := (bind r (λ x, k))
  (at level 20, r at level 100, k at level 200, right associativity,
   format "x  ←!  r ;  '/' k").

(** ** Strings *)

(** [s * k] on a string: [k] copies of [s]; none when [k <= 0]. *)
Fixpoint str_repeat (s : string) (k : nat) : string :=
  match k with
  | O => ""
  | S k' => s +:+ str_repeat s k'
  end.

Definition str_mul (s : string) (k : Z) : string := str_repeat s (Z.to_nat k).

(** [sep.join(parts)]. *)
Fixpoint str_join (sep : string) (parts : list string) : string :=
  match parts with
  | [] => ""
  | [p] => p
  | p :: ps => p +:+ sep +:+ str_join sep ps
  end.

(** Prepend a character to the first field of a split. *)
Definition cons_first (c : ascii) (fields : list string) : list string :=
  match fields with
  | [] => [String c ""]
  | w :: ws => String c w :: ws
  end.

(** [s.split(sep)] for a one-character separator: the string is cut at every
    occurrence of [sep]; the empty string gives one empty field, and two
    adjacent separators give an empty field between them. *)
Fixpoint str_split (sep : ascii) (s : string) : list string :=
  match s with
  | EmptyString => [""]
  | String c s' =>
      if Ascii.eqb c sep then "" :: str_split sep s'
      else cons_first c (str_split sep s')
  end.

(** ** Frequency tables *)

(** [fd[x]] on a [FreqDist]: the count of [x], zero when [x] is absent. *)
Definition freq `{Countable K} (fd : gmap K nat) (x : K) : nat :=
  default 0%nat (fd !! x).

(** [nltk.FreqDist(samples)]: one pass over the samples, each adding one to
    its own count. *)
Definition FreqDist `{Countable K} (samples : list K) : gmap K nat :=
  fold_left (λ fd x, <[x := S (freq fd x)]> fd) samples ∅.

(** The number of positions of [l] that hold [x]. *)
Definition occurrences `{EqDecision A} (x : A) (l : list A) : nat :=
  length (filter (λ y, y = x) l).

(** ** Preprocessing *)

Definition SOS : string := "<s> ".
Definition EOS : string := "</s>".
Definition UNK : string := "<UNK>".

Definition add_sentence_tokens (sentences : list string) (n : Z) : list string :=
  let sos := if decide (1 < n) then str_mul SOS (n - 1) else SOS in
  (λ s, sos +:+ s +:+ " " +:+ EOS) <$> sentences.

Definition replace_singletons (tokens : list string) : list string :=
  let vocab := FreqDist tokens in
  (λ token, if decide (1 < freq vocab token)%nat then token else UNK) <$> tokens.

(** The token stream before singletons are replaced. *)
Definition raw_tokens (sentences : list string) (n : Z) : list string :=
  str_split " " (str_join " " (add_sentence_tokens sentences n)).

Definition preprocess (sentences : list string) (n : Z) : list string :=
  let sentences := add_sentence_tokens sentences n in
  let tokens := str_split " " (str_join " " sentences) in
  let tokens := replace_singletons tokens in
  tokens.

(** ** Library calls used by the model *)

(** The contiguous windows of [k] items of [l], in order ([k] positive). *)
Fixpoint windows {A} (k : nat) (l : list A) : list (list A) :=
  match l with
  | [] => []
  | _ :: l' =>
      if decide (k ≤ length l)%nat then take k l :: windows k l' else []
  end.

(** [nltk.ngrams(sequence, n)] as NLTK computes it since 3.6 (the version
    that runs under the notebook's Python 3.11): [itertools.tee(sequence, n)]
    raises [ValueError] when [n] is negative, and the [zip] of the [n]
    staggered copies yields one tuple per window of [n] items, and nothing at
    all when [n = 0]. *)
Definition ngrams {A} (sequence : list A) (n : Z) : result (list (list A)) :=
  if decide (n < 0) then Err ValueError
  else if decide (n = 0) then Ok []
  else Ok (windows (Z.to_nat n) sequence).

(** The tuples of [k] items of [pool], in the order of [itertools.product]. *)
Fixpoint tuples {A} (pool : list A) (k : nat) : list (list A) :=
  match k with
  | O => [[]]
  | S k' => x ← pool; (x ::.) <$> tuples pool k'
  end.

(** [itertools.product(pool, repeat=n)]; a negative [repeat] raises
    [ValueError]. *)
Definition product {A} (pool : list A) (n : Z) : result (list (list A)) :=
  if decide (n < 0) then Err ValueError else Ok (tuples pool (Z.to_nat n)).

(** A count as a rational. *)
Definition Qcount (c : nat) : Q := inject_Z (Z.of_nat c).

(** True division [a / b]. *)
Definition py_div (a b : Q) : result Q :=
  if Qeq_bool b 0 then Err ZeroDivisionError else Ok (a / b)%Q.

Fixpoint mapM_result {A B} (f : A → result B) (l : list A) : result (list B) :=
  match l with
  | [] => Ok []
  | x :: l' => y ←! f x; ys ←! mapM_result f l'; Ok (y :: ys)
  end.

(** [dict(items)]: a later item overrides an earlier one with the same key. *)
Definition dict_of_items `{Countable K} {V} (items : list (K * V)) : gmap K V :=
  fold_left (λ d kv, <[kv.1 := kv.2]> d) items ∅.

(** The dict comprehension [{ key(k, v): val(k, v) for k, v in d.items() }],
    where evaluating [val] can raise. The items are visited in the order of
    [map_to_list]; the comprehensions of this program raise the same
    exception whichever item fails first. *)
Definition dict_comprehension `{Countable K} `{Countable K'} {V W}
    (key : K → V → K') (val : K → V → result W) (d : gmap K V)
    : result (gmap K' W) :=
  items ←! mapM_result (λ kv, w ←! val kv.1 kv.2; Ok (key kv.1 kv.2, w)) (map_to_list d);
  Ok (dict_of_items items).

(** ** The language model *)

Module LanguageModel.

Record t : Type := mk {
  n : Z;
  laplace : Q;
  tokens : list string;
  vocab : gmap string nat;
  model : gmap (list string) Q;
  masks : list (list Z)
}.

(** [_smooth] and [_create_model] run inside [__init__], on an object whose
    attributes [n], [laplace], [tokens] and [vocab] are set. *)
Definition _smooth (self : t) : result (gmap (list string) Q) :=
  let vocab_size := size self.(vocab) in
  n_grams ←! ngrams self.(tokens) self.(n);
  let n_vocab := FreqDist n_grams in
  m_grams ←! ngrams self.(tokens) (self.(n) - 1);
  let m_vocab := FreqDist m_grams in
  let smoothed_count (n_gram : list string) (n_count : nat) : result Q :=
    let m_gram := removelast n_gram in
    let m_count := freq m_vocab m_gram in
    py_div (Qcount n_count + self.(laplace))
           (Qcount m_count + self.(laplace) * Qcount vocab_size) in
  dict_comprehension (λ n_gram _, n_gram) smoothed_count n_vocab.

Definition _create_model (self : t) : result (gmap (list string) Q) :=
  if decide (self.(n) = 1) then
    let num_tokens := length self.(tokens) in
    dict_comprehension (λ unigram _, [unigram])
      (λ _ count, py_div (Qcount count) (Qcount num_tokens)) self.(vocab)
  else _smooth self.

Definition __init__ (train_data : list string) (n : Z) (laplace : Q) : result t :=
  let tokens := preprocess train_data n in
  let vocab := FreqDist tokens in
  let self := mk n laplace tokens vocab ∅ [] in
  model ←! _create_model self;
  masks ←! product [0; 1] n;
  Ok (mk n laplace tokens vocab model (reverse masks)).

End LanguageModel.

(** ** The specification's reading of preprocessing *)

(** Whitespace as [str.split()] understands it, among the characters with a
    code below 256: tab to carriage return, the four separators 28 to 31,
    space, next-line and no-break space. *)
Definition is_whitespace (c : ascii) : bool :=
  let k := nat_of_ascii c in
  ((9 <=? k) && (k <=? 13) || (28 <=? k) && (k <=? 32)
   || (k =? 133) || (k =? 160))%nat.

(** [s.split()]: the maximal runs of characters that are not whitespace. *)
Fixpoint split_whitespace (s : string) : list string :=
  match s with
  | EmptyString => []
  | String c s' =>
      if is_whitespace c then split_whitespace s'
      else
        match s' with
        | EmptyString => [String c ""]
        | String c' _ =>
            if is_whitespace c' then String c "" :: split_whitespace s'
            else cons_first c (split_whitespace s')
        end
  end.







(** ** The specification's smoothing formula *)

(** The count of the prefix of [g] in the table of (n-1)-grams; that table
    is empty when [n = 1]. *)
Definition prefix_count (tokens : list string) (n : Z) (g : list string) : nat :=
  if decide (n ≤ 1) then 0%nat
  else occurrences (take (Z.to_nat (n - 1)) g) (windows (Z.to_nat (n - 1)) tokens).

(** (count(ngram) + lambda) / (count(prefix(ngram)) + lambda * |vocabulary|),
    the counts taken over the windows of the stream and the vocabulary being
    the distinct tokens of the stream. *)
Definition laplace_estimate (tokens : list string) (n : Z) (lambda : Q)
    (g : list string) : Q :=
  ((Qcount (occurrences g (windows (Z.to_nat n) tokens)) + lambda)
   / (Qcount (prefix_count tokens n g)
      + lambda * Qcount (length (remove_dups tokens))))%Q.

(** ** Lookup and generation *)

(** Modelled from the spec: [LanguageModel.probability], which the notebook
    does not define. It "returns the table's precomputed value
    if present; otherwise computes it via the smoothing formula using live
    counts", the count of the prefix "defaulting to 0 if absent from the
    prefix table"; the prefix is "the n-gram's first n-1 tokens". *)
Definition probability (self : LanguageModel.t) (ngram : list string) : result Q :=
  match self.(LanguageModel.model) !! ngram with
  | Some p => Ok p
  | None =>
      n_grams ←! ngrams self.(LanguageModel.tokens) self.(LanguageModel.n);
      m_grams ←! ngrams self.(LanguageModel.tokens) (self.(LanguageModel.n) - 1);
      let n_count := freq (FreqDist n_grams) ngram in
      let prefix := take (Z.to_nat (self.(LanguageModel.n) - 1)) ngram in
      let m_count := freq (FreqDist m_grams) prefix in
      py_div (Qcount n_count + self.(LanguageModel.laplace))
             (Qcount m_count
              + self.(LanguageModel.laplace) * Qcount (size self.(LanguageModel.vocab)))
  end.

(** Modelled from the spec: the order of preference among scored candidates,
    "the strictly highest probability, breaking ties by a fixed deterministic
    secondary order (e.g. lexicographic on the token)". *)
Definition better (a b : string * Q) : bool :=
  match (a.2 ?= b.2)%Q with
  | Gt => true
  | Lt => false
  | Eq => String.ltb a.1 b.1
  end.

Definition pick (best : option (string * Q)) (c : string * Q) : option (string * Q) :=
  match best with
  | None => Some c
  | Some b => if better c b then Some c else Some b
  end.

(** Modelled from the spec: [LanguageModel.best_candidate], absent from the
    notebook. It "enumerates every vocabulary token as a candidate
    continuation, computes probability(context + candidate) for each, and
    returns the candidate with the strictly highest probability"; "candidates
    already excluded are skipped". The order in which the vocabulary is
    walked is the argument [walk]. *)
Definition best_candidate (self : LanguageModel.t) (walk : list string)
    (context exclude : list string) : result (option (string * Q)) :=
  scored ←! mapM_result
              (λ c, p ←! probability self (context ++ [c]); Ok (c, p))
              (filter (λ c, c ∉ exclude) walk);
  Ok (fold_left pick scored None).

(** The last [k] items of [l]. *)
Definition last_items {A} (k : nat) (l : list A) : list A :=
  drop (length l - k) l.

(** Modelled from the spec: one run of [LanguageModel.generate_sentences],
    absent from the notebook: "seeding the context with n-1 start markers,
    repeatedly calling best_candidate to extend the sequence one token at a
    time, multiplying the chosen token's probability into a running sentence
    probability, and stopping when the end marker is produced or max_len is
    reached (if min_len not yet reached when end-marker would be chosen,
    suppress end-marker selection and pick the next-best candidate
    instead)". [room] is what is left of [max_len]. *)
Fixpoint extend_sentence (self : LanguageModel.t) (walk : list string)
    (min_len room : nat) (sent : list string) (prob : Q)
    : result (list string * Q) :=
  match room with
  | O => Ok (sent, prob)
  | S room' =>
      let k := Z.to_nat (self.(LanguageModel.n) - 1) in
      let context := last_items k (replicate k "<s>" ++ sent) in
      let exclude := if decide (length sent < min_len)%nat then ["</s>"] else [] in
      choice ←! best_candidate self walk context exclude;
      match choice with
      | None => Ok (sent, prob)
      | Some (token, p) =>
          if decide (token = "</s>") then Ok (sent ++ [token], (prob * p)%Q)
          else extend_sentence self walk min_len room' (sent ++ [token]) (prob * p)%Q
      end
  end.

(** Modelled from the spec: [LanguageModel.generate_sentences(count,
    min_len, max_len)], absent from the notebook: [count] runs, each giving
    the pair of the sentence text and its aggregate probability. *)
Definition generate_sentences (self : LanguageModel.t) (walk : list string)
    (count : Z) (min_len max_len : nat) : result (list (string * Q)) :=
  mapM_result
    (λ _, r ←! extend_sentence self walk min_len max_len [] 1%Q;
          Ok (str_join " " r.1, r.2))
    (seq 0 (Z.to_nat count)).




(** ** Characters of a string *)

(** [c in s] for a character [c]. *)
Fixpoint has_char (c : ascii) (s : string) : bool :=
  match s with
  | EmptyString => false
  | String c' s' => Ascii.eqb c' c || has_char c s'
  end.

(** The number of start markers [add_sentence_tokens] puts before a
    sentence. *)
Definition start_markers (n : Z) : nat :=
  if decide (1 < n) then Z.to_nat (n - 1) else 1%nat.


(** ** The exploratory cells *)

(** [a or b] on integers: [a] when it is not zero, else [b]. *)
Definition py_or (a b : Z) : Z := if decide (a = 0) then b else a.

(** [removal(x)]; the set [stop_words] is a global of the notebook. *)
Definition removal (stop_words : gset string) (x : list (list string))
    : list (list string) :=
  fold_left
    (λ y pair,
       let count :=
         fold_left
           (λ count word,
              if decide (word ∈ stop_words) then py_or count 0
              else py_or count 1)
           pair 0 in
       if decide (count = 1) then y ++ [pair] else y)
    x [].

(** ** Loading the data *)

(** [s.lstrip()], [s.rstrip()] and [s.strip()]. *)
Fixpoint lstrip (s : string) : string :=
  match s with
  | EmptyString => ""
  | String c s' => if is_whitespace c then lstrip s' else s
  end.

Fixpoint rstrip (s : string) : string :=
  match s with
  | EmptyString => ""
  | String c s' =>
      match rstrip s' with
      | EmptyString => if is_whitespace c then "" else String c ""
      | kept => String c kept
      end
  end.

Definition strip (s : string) : string := rstrip (lstrip s).

(** [load_data], from the list of lines that [f.readlines()] returns. *)
Definition load_data (lines : list string) : list string :=
  let data := (λ l, str_split "." (strip l)) <$> lines in
  let res := concat data in
  let res := filter (λ x, x ≠ "") res in
  res.

(** ** The loop over a tokenized sentence *)

(** [l.remove(x)]: the first item equal to [x] goes; [ValueError] when there
    is none. *)
Fixpoint list_remove (x : string) (l : list string) : result (list string) :=
  match l with
  | [] => Err ValueError
  | y :: l' =>
      if decide (y = x) then Ok l'
      else l'' ←! list_remove x l'; Ok (y :: l'')
  end.

(** The loop
    [for word in sequence: if word == '.': sequence.remove(word) else:
    unigram.append(word)], which changes the list it walks. The iterator of a
    list is an index [i] into the list as it stands when the next word is
    fetched, and the loop ends when [i] is past the end. [steps] bounds the
    number of iterations: the result is [None] when it does not suffice. *)
Fixpoint period_loop_from (steps : nat) (sequence : list string) (i : nat)
    (unigram : list string) : option (result (list string * list string)) :=
  match sequence !! i with
  | None => Some (Ok (sequence, unigram))
  | Some word =>
      match steps with
      | O => None
      | S steps' =>
          if decide (word = ".") then
            match list_remove word sequence with
            | Ok sequence' => period_loop_from steps' sequence' (S i) unigram
            | Err e => Some (Err e)
            end
          else period_loop_from steps' sequence (S i) (unigram ++ [word])
      end
  end.

(** The whole loop: the list has [len(sequence)] items at the start and
    never grows, so that many iterations suffice. *)
Definition period_loop (sequence unigram : list string)
    : option (result (list string * list string)) :=
  period_loop_from (length sequence) sequence 0 unigram.

(** A string of whitespace only (the empty string included). *)
Fixpoint all_whitespace (s : string) : bool :=
  match s with
  | EmptyString => true
  | String c s' => is_whitespace c && all_whitespace s'
  end.

(** The last cell: [unigram_sw_removed], the words of [unigram] that are not
    stop words, and [bigram_sw_removed], the 2-grams of that list. *)
Definition unigram_sw_removed (stop_words : gset string) (unigram : list string)
    : list string :=
  filter (λ p, p ∉ stop_words) unigram.

Definition bigram_sw_removed (stop_words : gset string) (unigram : list string)
    : result (list (list string)) :=
  ngrams (unigram_sw_removed stop_words unigram) 2.

(** * Properties *)

(** Run the constructor met in the goal; [M] names the model it returns. *)
Ltac build_model M H :=
  match goal with
  | |- context [LanguageModel.__init__ ?data ?n ?l] =>
      destruct (LanguageModel.__init__ data n l) as [M|?] eqn:H;
      [|vm_compute in H; discriminate H]
  end.

(** Decide a membership between closed terms by evaluation. *)
Ltac by_evaluation := apply (bool_decide_unpack _); vm_compute; exact I.

(** ** The definitions at work *)

Example add_sentence_tokens_trigram :
  add_sentence_tokens ["the cat sat"] 3 = ["<s> <s> the cat sat </s>"].
Proof. reflexivity. Qed.

Example add_sentence_tokens_unigram :
  add_sentence_tokens ["the cat sat"] 1 = ["<s> the cat sat </s>"].
Proof. reflexivity. Qed.

Example str_split_keeps_empty_fields :
  str_split " " " a b  c" = [""; "a"; "b"; ""; "c"].
Proof. reflexivity. Qed.

Example split_whitespace_drops_them :
  split_whitespace " a b  c" = ["a"; "b"; "c"].
Proof. reflexivity. Qed.

Example preprocess_bigram :
  preprocess ["the cat sat"; "the dog sat"] 2
  = ["<s>"; "the"; "<UNK>"; "sat"; "</s>"; "<s>"; "the"; "<UNK>"; "sat"; "</s>"].
Proof. reflexivity. Qed.

Example ngrams_bigrams :
  ngrams ["a"; "b"; "c"] 2 = Ok [["a"; "b"]; ["b"; "c"]].
Proof. reflexivity. Qed.

Example bigram_model :
  ∃ M, LanguageModel.__init__ ["the cat sat"; "the dog sat"] 2 1 = Ok M
       ∧ size (LanguageModel.vocab M) = 5%nat
       ∧ LanguageModel.model M !! ["the"; "<UNK>"] = Some (3 # 7)%Q
       ∧ LanguageModel.model M !! ["</s>"; "<s>"] = Some (2 # 7)%Q
       ∧ LanguageModel.model M !! ["the"; "sat"] = None
       ∧ LanguageModel.masks M = [[1; 1]; [1; 0]; [0; 1]; [0; 0]].
Proof.
  build_model M Hinit. exists M. split; [reflexivity|].
  vm_compute in Hinit. injection Hinit as <-. by vm_compute.
Qed.

Example generated_sentences :
  ∃ M, LanguageModel.__init__ ["the cat sat"; "the dog sat"] 2 1 = Ok M
       ∧ generate_sentences M (map_to_list (LanguageModel.vocab M)).*1 2 1 20
         = Ok [("the <UNK> sat </s>", 81 # 2401); ("the <UNK> sat </s>", 81 # 2401)]%Q.
Proof.
  build_model M Hinit. exists M. split; [reflexivity|].
  vm_compute in Hinit. injection Hinit as <-. by vm_compute.
Qed.

(** ** Frequency tables count occurrences *)

Section Counting.
Context `{Countable K}.
Implicit Types (x y : K) (l : list K) (fd : gmap K nat).

Lemma occurrences_nil x : occurrences x [] = 0%nat.
Proof. reflexivity. Qed.

Lemma occurrences_cons x y l :
  occurrences x (y :: l)
  = ((if decide (y = x) then 1 else 0) + occurrences x l)%nat.
Proof.
  unfold occurrences. rewrite filter_cons.
  destruct (decide (y = x)); reflexivity.
Qed.

Lemma occurrences_app x l1 l2 :
  occurrences x (l1 ++ l2) = (occurrences x l1 + occurrences x l2)%nat.
Proof. unfold occurrences. by rewrite filter_app, length_app. Qed.

Lemma occurrences_pos x l : x ∈ l ↔ (0 < occurrences x l)%nat.
Proof.
  induction l as [|y l IH]; [rewrite occurrences_nil; split; [by inversion 1|lia]|].
  rewrite occurrences_cons, elem_of_cons.
  destruct (decide (y = x)) as [->|Hne]; [split; [lia|by left]|].
  rewrite IH. split; [intros [?|?]; [congruence|lia]|intros; right; lia].
Qed.

Lemma occurrences_le_length x l : (occurrences x l ≤ length l)%nat.
Proof. apply length_filter. Qed.

Lemma freq_insert fd x y c :
  freq (<[y := c]> fd) x = if decide (y = x) then c else freq fd x.
Proof.
  unfold freq. destruct (decide (y = x)) as [->|Hne].
  - by rewrite lookup_insert_eq.
  - by rewrite lookup_insert_ne.
Qed.

Lemma freq_fold l fd x :
  freq (fold_left (λ fd y, <[y := S (freq fd y)]> fd) l fd) x
  = (freq fd x + occurrences x l)%nat.
Proof.
  revert fd. induction l as [|y l IH]; intros fd; simpl.
  - rewrite occurrences_nil. lia.
  - rewrite IH, freq_insert, occurrences_cons.
    destruct (decide (y = x)) as [->|Hne]; lia.
Qed.

(** [FreqDist(l)[x]] is the number of occurrences of [x] in [l]. *)
Lemma freq_FreqDist l x : freq (FreqDist l) x = occurrences x l.
Proof. unfold FreqDist. rewrite freq_fold. unfold freq. by rewrite lookup_empty. Qed.

Lemma lookup_fold_is_Some l fd x :
  is_Some (fold_left (λ fd y, <[y := S (freq fd y)]> fd) l fd !! x)
  ↔ x ∈ l ∨ is_Some (fd !! x).
Proof.
  revert fd. induction l as [|y l IH]; intros fd; simpl.
  - split; [by right|intros [Hx|?]; [by inversion Hx|done]].
  - rewrite IH, elem_of_cons, lookup_insert_is_Some. 
    destruct (decide (y = x)) as [->|Hne]; intuition congruence.
Qed.

(** The keys of [FreqDist(l)] are the items of [l]. *)
Lemma lookup_FreqDist_is_Some l x : is_Some (FreqDist l !! x) ↔ x ∈ l.
Proof.
  unfold FreqDist. rewrite lookup_fold_is_Some, lookup_empty.
  split; [intros [?|[? ?]]; [done|discriminate]|by left].
Qed.

Lemma lookup_FreqDist l x c :
  FreqDist l !! x = Some c ↔ x ∈ l ∧ c = occurrences x l.
Proof.
  rewrite <-lookup_FreqDist_is_Some, <-freq_FreqDist. unfold freq. split.
  - intros ->. eauto.
  - intros [[c' Hc'] ->]. by rewrite Hc'.
Qed.

(** [len(FreqDist(l))] is the number of distinct items of [l]. *)
Lemma size_FreqDist l : size (FreqDist l) = length (remove_dups l).
Proof.
  rewrite <-length_map_to_list, <-(length_fmap fst).
  apply Permutation_length, NoDup_Permutation.
  - apply NoDup_fst_map_to_list.
  - apply NoDup_remove_dups.
  - intros x. rewrite elem_of_remove_dups. split.
    + intros [[x' c] [-> Hin]]%list_elem_of_fmap.
      apply elem_of_map_to_list in Hin. apply lookup_FreqDist_is_Some. eauto.
    + intros [c Hc]%lookup_FreqDist_is_Some. apply list_elem_of_fmap.
      exists (x, c). split; [done|]. by apply elem_of_map_to_list.
Qed.

Lemma size_FreqDist_pos l : l ≠ [] → (0 < size (FreqDist l))%nat.
Proof.
  destruct l as [|x l]; [done|intros _].
  assert (size (FreqDist (x :: l)) ≠ 0%nat); [|lia].
  apply map_size_ne_0_lookup. exists x.
  apply lookup_FreqDist_is_Some. by left.
Qed.
End Counting.

(** ** Replacing singletons *)

Lemma replace_singletons_fmap tokens :
  replace_singletons tokens
  = (λ t, if decide (1 < occurrences t tokens)%nat then t else UNK) <$> tokens.
Proof.
  unfold replace_singletons. apply list_fmap_ext. intros i t _.
  by rewrite freq_FreqDist.
Qed.

Lemma occurrences_fmap_keep (keep : string → bool) (t : string) (l : list string) :
  t ≠ UNK →
  occurrences t ((λ a, if keep a then a else UNK) <$> l)
  = if keep t then occurrences t l else 0%nat.
Proof.
  intros Ht. induction l as [|a l IH]; [by destruct (keep t)|].
  rewrite fmap_cons, !occurrences_cons, IH.
  destruct (decide (a = t)) as [->|Hat].
  - destruct (keep t); [by rewrite decide_True|by rewrite decide_False].
  - destruct (keep a), (keep t); try rewrite (decide_False (P := a = t)) by done;
      try rewrite (decide_False (P := UNK = t)) by done; reflexivity.
Qed.

(** A token other than the unknown marker is kept with all its occurrences
    when it has at least two, and disappears otherwise. *)
Lemma occurrences_replace_singletons t tokens :
  t ≠ UNK →
  occurrences t (replace_singletons tokens)
  = if decide (1 < occurrences t tokens)%nat then occurrences t tokens else 0%nat.
Proof.
  intros Ht. rewrite replace_singletons_fmap.
  transitivity
    (occurrences t
       ((λ a, if bool_decide (1 < occurrences a tokens)%nat then a else UNK)
          <$> tokens)).
  - f_equal. apply list_fmap_ext. intros _ a _. simpl.
    by destruct (decide (1 < occurrences a tokens)%nat);
      [rewrite bool_decide_true|rewrite bool_decide_false].
  - rewrite (occurrences_fmap_keep _ t tokens Ht).
    by destruct (decide (1 < occurrences t tokens)%nat);
      [rewrite bool_decide_true|rewrite bool_decide_false].
Qed.

Lemma replace_singletons_twice t tokens :
  t ∈ replace_singletons tokens → t ≠ UNK →
  (2 ≤ occurrences t (replace_singletons tokens))%nat.
Proof.
  intros Hin Ht. apply occurrences_pos in Hin.
  rewrite occurrences_replace_singletons in Hin |- * by done.
  case_decide; lia.
Qed.

Lemma preprocess_raw_tokens sentences n :
  preprocess sentences n = replace_singletons (raw_tokens sentences n).
Proof. reflexivity. Qed.

(** C10. [replace_singletons] keeps the length of its input; the token at
    each position is the original one when that token occurs more than once
    in the whole input and the unknown marker otherwise; so the preprocessed
    stream is as long as the raw stream it was derived from. *)
Theorem replace_singletons_positionwise :
  (∀ tokens : list string,
     length (replace_singletons tokens) = length tokens
     ∧ ∀ i : nat,
         replace_singletons tokens !! i
         = (λ t, if decide (1 < occurrences t tokens)%nat then t else "<UNK>")
             <$> tokens !! i)
  ∧ (∀ (sentences : list string) (n : Z),
       length (preprocess sentences n) = length (raw_tokens sentences n)).
Proof.
  split.
  - intros tokens. rewrite replace_singletons_fmap. split.
    + apply length_fmap.
    + intros i. apply list_lookup_fmap.
  - intros sentences n. rewrite preprocess_raw_tokens, replace_singletons_fmap.
    apply length_fmap.
Qed.

(** C5. In the stream produced by preprocessing, every token other than the
    reserved markers (start, end, unknown) occurs at least twice. *)
Theorem preprocess_no_singletons (sentences : list string) (n : Z) (t : string) :
  t ∈ preprocess sentences n →
  t ≠ "<s>" → t ≠ "</s>" → t ≠ "<UNK>" →
  (2 ≤ occurrences t (preprocess sentences n))%nat.
Proof.
  intros Hin _ _ Ht. rewrite preprocess_raw_tokens in *.
  by apply replace_singletons_twice.
Qed.

Lemma preprocess_no_singletons_witness :
  "the" ∈ preprocess ["the cat sat"; "the dog sat"] 2
  ∧ "the" ≠ "<s>" ∧ "the" ≠ "</s>" ∧ "the" ≠ "<UNK>"
  ∧ (2 ≤ occurrences "the" (preprocess ["the cat sat"; "the dog sat"] 2))%nat.
Proof.
  assert (Hin : "the" ∈ preprocess ["the cat sat"; "the dog sat"] 2)
    by by_evaluation.
  split_and!; [exact Hin|discriminate..|].
  apply (preprocess_no_singletons ["the cat sat"; "the dog sat"] 2 "the" Hin);
    discriminate.
Defined.

(** C6. What [preprocess] returns for the empty list of sentences: the join
    of no sentence is the empty string, whose split on a space is one empty
    field, and that single token is replaced by the unknown marker. *)
Theorem preprocess_empty (n : Z) : preprocess [] n = ["<UNK>"].
Proof. reflexivity. Qed.

(** ** Splitting at spaces and splitting on whitespace *)

Lemma append_nil (s : string) : "" +:+ s = s.
Proof. reflexivity. Qed.

Lemma append_cons (c : ascii) (s1 s2 : string) :
  String c s1 +:+ s2 = String c (s1 +:+ s2).
Proof. reflexivity. Qed.

Lemma append_assoc (s1 s2 s3 : string) : (s1 +:+ s2) +:+ s3 = s1 +:+ s2 +:+ s3.
Proof.
  induction s1 as [|c s1 IH]; [done|].
  by rewrite !append_cons, IH.
Qed.














(** ** Comprehensions over a dict *)

Lemma mapM_result_Ok {A B} (f : A → result B) (l : list A) (ys : list B) :
  mapM_result f l = Ok ys ↔ Forall2 (λ x y, f x = Ok y) l ys.
Proof.
  revert ys. induction l as [|x l IH]; intros ys; simpl.
  - split; [intros [= <-]; constructor|by inversion 1].
  - split.
    + destruct (f x) as [y|e] eqn:Hx; simpl; [|done].
      destruct (mapM_result f l) as [ys'|e] eqn:Hl; simpl; [|done].
      intros [= <-]. constructor; [done|]. by apply IH.
    + intros Hall. inversion Hall as [|x' y' l' ys' Hy Hys]; subst.
      rewrite Hy. simpl. apply IH in Hys. by rewrite Hys.
Qed.

Lemma mapM_result_Err {A B} (f : A → result B) (l : list A) (e : exn) :
  mapM_result f l = Err e → ∃ x, x ∈ l ∧ f x = Err e.
Proof.
  induction l as [|x l IH]; simpl; [done|].
  destruct (f x) as [y|e'] eqn:Hx; simpl.
  - destruct (mapM_result f l) as [ys'|e'] eqn:Hl; simpl; [done|].
    intros [= ->]. destruct IH as (x' & Hin & Hx'); [done|].
    exists x'. split; [by right|done].
  - intros [= ->]. exists x. split; [by left|done].
Qed.

Lemma mapM_result_total {A B} (f : A → result B) (l : list A) :
  (∀ x, x ∈ l → ∃ y, f x = Ok y) → ∃ ys, mapM_result f l = Ok ys.
Proof.
  intros Hall. destruct (mapM_result f l) as [ys|e] eqn:Hl; [eauto|].
  apply mapM_result_Err in Hl as (x & Hin & Hx).
  destruct (Hall x Hin) as [y Hy]. congruence.
Qed.

Section Items.
Context `{Countable K} {V : Type}.
Implicit Types (d : gmap K V).

Lemma lookup_fold_insert (items : list (K * V)) d k v :
  NoDup (fst <$> items) →
  fold_left (λ d kv, <[kv.1 := kv.2]> d) items d !! k = Some v
  ↔ (k, v) ∈ items ∨ ((k ∉ fst <$> items) ∧ d !! k = Some v).
Proof.
  revert d. induction items as [|[k0 v0] items IH]; intros d Hnd.
  - simpl. split; [intros; right; split; [by inversion 1|done]|].
    by intros [Hin|[_ ?]]; [inversion Hin|].
  - apply NoDup_cons in Hnd as [Hk0 Hnd]. simpl. rewrite (IH _ Hnd).
    rewrite elem_of_cons, not_elem_of_cons.
    destruct (decide (k = k0)) as [->|Hne].
    + rewrite lookup_insert_eq. split.
      * intros [Hin|[_ [= ->]]]; [|by left; left].
        destruct Hk0. apply list_elem_of_fmap. by exists (k0, v).
      * intros [[[= ->]|Hin]|[[? _] _]]; [by right| |done].
        destruct Hk0. apply list_elem_of_fmap. by exists (k0, v).
    + rewrite lookup_insert_ne by done. split.
      * intros [?|[? ?]]; [by left; right|by right].
      * intros [[[= -> ->]|?]|[[_ ?] ?]]; [done|by left|by right].
Qed.

Lemma lookup_dict_of_items (items : list (K * V)) k v :
  NoDup (fst <$> items) → dict_of_items items !! k = Some v ↔ (k, v) ∈ items.
Proof.
  intros Hnd. unfold dict_of_items. rewrite lookup_fold_insert by done.
  rewrite lookup_empty. split; [by intros [?|[_ ?]]|by left].
Qed.

End Items.

Section Dicts.
Context `{Countable K} `{Countable K'} {V W : Type}.
Implicit Types (d : gmap K V) (out : gmap K' W).

Variables (key : K → V → K') (val : K → V → result W).
Hypothesis key_inj : ∀ k1 v1 k2 v2, key k1 v1 = key k2 v2 → k1 = k2.

Lemma dict_comprehension_Ok d out :
  dict_comprehension key val d = Ok out →
  ∀ k' w, out !! k' = Some w
          ↔ ∃ k v, d !! k = Some v ∧ k' = key k v ∧ val k v = Ok w.
Proof.
  unfold dict_comprehension.
  destruct (mapM_result _ (map_to_list d)) as [items|e] eqn:Hitems; [|done].
  cbn [bind]. intros [= <-] k' w.
  apply mapM_result_Ok in Hitems.
  assert (Hnd : NoDup (fst <$> items)).
  { pose proof (NoDup_map_to_list d) as Hd.
    pose proof (NoDup_fst_map_to_list d) as Hd1.
    revert Hd1. clear Hd. induction Hitems as [|[k v] [k1 w1] l items Hkv Hl IH];
      [constructor|].
    rewrite !fmap_cons. intros [Hk Hl']%NoDup_cons. simpl in *.
    destruct (val k v) as [w2|] eqn:Hv; simplify_eq/=.
    apply NoDup_cons. split; [|by apply IH].
    intros (item & Hitem1 & Hin)%list_elem_of_fmap.
    apply list_elem_of_lookup in Hin as [j Hj].
    destruct (Forall2_lookup_r _ _ _ _ _ Hl Hj) as ([k2 v2] & Hj2 & Hitem); simpl in *.
    destruct (val k2 v2) as [w3|] eqn:Hv2; simplify_eq/=.
    apply key_inj in Hitem1 as ->. destruct Hk.
    apply list_elem_of_fmap. exists (k2, v2). split; [done|].
    apply list_elem_of_lookup. eauto. }
  rewrite lookup_dict_of_items by done. split.
  - intros [j Hj]%list_elem_of_lookup.
    destruct (Forall2_lookup_r _ _ _ _ _ Hitems Hj) as ([k v] & Hj2 & Hitem); simpl in *.
    destruct (val k v) as [w2|] eqn:Hv; simplify_eq/=.
    exists k, v. split; [|done].
    apply elem_of_map_to_list, list_elem_of_lookup. eauto.
  - intros (k & v & Hkv & -> & Hv).
    apply elem_of_map_to_list, list_elem_of_lookup in Hkv as [j Hj].
    destruct (Forall2_lookup_l _ _ _ _ _ Hitems Hj) as (item & Hj2 & Hitem); simpl in *.
    rewrite Hv in Hitem. simplify_eq/=.
    apply list_elem_of_lookup. eauto.
Qed.

Lemma dict_comprehension_Ok_val d out k v :
  dict_comprehension key val d = Ok out → d !! k = Some v →
  ∃ w, val k v = Ok w.
Proof.
  unfold dict_comprehension.
  destruct (mapM_result _ (map_to_list d)) as [items|e] eqn:Hitems; [|done].
  intros _ Hkv. apply mapM_result_Ok in Hitems.
  apply elem_of_map_to_list, list_elem_of_lookup in Hkv as [j Hj].
  destruct (Forall2_lookup_l _ _ _ _ _ Hitems Hj) as (item & _ & Hitem).
  simpl in Hitem. destruct (val k v) as [w|]; [eauto|done].
Qed.

Lemma dict_comprehension_total d :
  (∀ k v, d !! k = Some v → ∃ w, val k v = Ok w) →
  ∃ out, dict_comprehension key val d = Ok out.
Proof.
  intros Hall. unfold dict_comprehension.
  destruct (mapM_result_total
              (λ kv, w ←! val kv.1 kv.2; Ok (key kv.1 kv.2, w))
              (map_to_list d)) as [items ->]; [|by eexists].
  intros [k v] Hkv%elem_of_map_to_list. simpl.
  destruct (Hall k v Hkv) as [w ->]. by eexists.
Qed.

Lemma dict_comprehension_Err d e :
  dict_comprehension key val d = Err e →
  ∃ k v, d !! k = Some v ∧ val k v = Err e.
Proof.
  unfold dict_comprehension.
  destruct (mapM_result _ (map_to_list d)) as [items|e'] eqn:Hitems; [done|].
  simpl. intros [= ->].
  apply mapM_result_Err in Hitems as ([k v] & Hin & Hkv). simpl in *.
  exists k, v. split; [by apply elem_of_map_to_list|].
  destruct (val k v); simpl in Hkv; congruence.
Qed.
End Dicts.

(** ** Windows *)

Section Windows.
Context `{EqDecision A}.
Implicit Types (l g : list A) (k : nat).

Lemma elem_of_windows_length k l g : g ∈ windows k l → length g = k.
Proof.
  induction l as [|x l IH]; simpl; [by inversion 1|].
  case_decide as Hk; [|by inversion 1].
  intros [->|Hin]%elem_of_cons; [|by apply IH].
  rewrite length_take. simpl. lia.
Qed.

(** Every window of [k + 1] items starts with a window of [k] items, so
    an n-gram is never more frequent than its prefix. *)
Lemma occurrences_windows_prefix k l g :
  (occurrences g (windows (S k) l) ≤ occurrences (take k g) (windows k l))%nat.
Proof.
  induction l as [|x l IH]; [done|].
  cbn [windows]. destruct (decide (S k ≤ length (x :: l))%nat) as [Hk|Hk].
  - rewrite decide_True by lia. rewrite !occurrences_cons.
    destruct (decide (take (S k) (x :: l) = g)) as [Heq|Hne];
      [|destruct (decide (take k (x :: l) = take k g)); lia].
    rewrite decide_True; [lia|].
    rewrite <-Heq, take_take. f_equal. lia.
  - rewrite occurrences_nil. lia.
Qed.
End Windows.

(** ** Arithmetic of the estimates *)

Lemma Qcount_le (c m : nat) : (c ≤ m)%nat → (Qcount c <= Qcount m)%Q.
Proof. intros Hcm. unfold Qcount. rewrite <-Zle_Qle. lia. Qed.

Lemma Qcount_nonneg (c : nat) : (0 <= Qcount c)%Q.
Proof. apply (Qcount_le 0 c). lia. Qed.

Lemma Qcount_ge_1 (c : nat) : (0 < c)%nat → (1 <= Qcount c)%Q.
Proof. intros Hc. apply (Qcount_le 1 c). lia. Qed.

Lemma py_div_Ok (a b p : Q) : py_div a b = Ok p → p = (a / b)%Q ∧ ¬ (b == 0)%Q.
Proof.
  unfold py_div. destruct (Qeq_bool b 0) eqn:Hb; [done|].
  intros [= <-]. split; [done|]. by apply Qeq_bool_neq.
Qed.

Lemma py_div_nonzero (a b : Q) : ¬ (b == 0)%Q → py_div a b = Ok (a / b)%Q.
Proof.
  intros Hb. unfold py_div. destruct (Qeq_bool b 0) eqn:Hb0; [|done].
  by apply Qeq_bool_iff in Hb0.
Qed.

Lemma py_div_Err (a b : Q) (e : exn) :
  py_div a b = Err e → e = ZeroDivisionError ∧ (b == 0)%Q.
Proof.
  unfold py_div. destruct (Qeq_bool b 0) eqn:Hb; [|done].
  intros [= <-]. split; [done|]. by apply Qeq_bool_iff.
Qed.

Lemma ratio_in_unit (a b : Q) :
  (0 < a)%Q → (a <= b)%Q → (0 < a / b)%Q ∧ (a / b <= 1)%Q.
Proof.
  intros Ha Hab. assert (Hb : (0 < b)%Q) by lra. split.
  - apply Qlt_shift_div_l; [done|]. lra.
  - apply Qle_shift_div_r; [done|]. lra.
Qed.

(** Numerator and denominator of a smoothed estimate: with a count [c] no
    larger than the prefix count [m], a vocabulary of [v >= 1] tokens and
    [lambda >= 0], the numerator is at most the denominator. *)
Lemma smoothing_terms (c m v : nat) (lambda : Q) :
  (c ≤ m)%nat → (0 < v)%nat → (0 <= lambda)%Q →
  (Qcount c + lambda <= Qcount m + lambda * Qcount v)%Q.
Proof.
  intros Hcm Hv Hl.
  pose proof (Qcount_le c m Hcm). pose proof (Qcount_ge_1 v Hv).
  assert (0 <= lambda * (Qcount v - 1))%Q by (apply Qmult_le_0_compat; lra).
  lra.
Qed.

(** ** The trained model *)

Lemma ngrams_pos {A} (l : list A) (k : Z) :
  0 < k → ngrams l k = Ok (windows (Z.to_nat k) l).
Proof. intros Hk. unfold ngrams. by rewrite !decide_False by lia. Qed.

Lemma ngrams_neg {A} (l : list A) (k : Z) : k < 0 → ngrams l k = Err ValueError.
Proof. intros Hk. unfold ngrams. by rewrite decide_True. Qed.

Lemma str_split_nonempty (sep : ascii) (s : string) : str_split sep s ≠ [].
Proof.
  destruct s as [|c s]; simpl; [done|].
  destruct (Ascii.eqb c sep); [done|]. by destruct (str_split sep s).
Qed.

(** The token stream is never empty: a split has at least one field. *)
Lemma preprocess_nonempty (sentences : list string) (n : Z) :
  preprocess sentences n ≠ [].
Proof.
  intros Hnil. apply (f_equal length) in Hnil.
  rewrite preprocess_raw_tokens, replace_singletons_fmap, length_fmap in Hnil.
  apply (str_split_nonempty " " (str_join " " (add_sentence_tokens sentences n))).
  by apply length_zero_iff_nil.
Qed.

Lemma removelast_take {A} (g : list A) (k : nat) :
  length g = S k → removelast g = take k g.
Proof. intros Hg. rewrite removelast_firstn_len, Hg. reflexivity. Qed.

Section Trained.
Variables (train : list string) (n : Z) (lambda : Q) (M : LanguageModel.t).
Hypothesis Hinit : LanguageModel.__init__ train n lambda = Ok M.

Let tokens : list string := preprocess train n.
Let self : LanguageModel.t :=
  LanguageModel.mk n lambda tokens (FreqDist tokens) ∅ [].

Lemma trained_fields :
  LanguageModel.n M = n ∧ LanguageModel.laplace M = lambda
  ∧ LanguageModel.tokens M = tokens
  ∧ LanguageModel.vocab M = FreqDist tokens
  ∧ LanguageModel._create_model self = Ok (LanguageModel.model M).
Proof.
  unfold LanguageModel.__init__ in Hinit. fold tokens self in Hinit.
  destruct (LanguageModel._create_model self) as [tbl|e]; [|done].
  cbn [bind] in Hinit. destruct (product [0; 1] n) as [ms|e]; [|done].
  cbn [bind] in Hinit. by injection Hinit as <-.
Qed.

Lemma trained_create_model :
  LanguageModel._create_model self = Ok (LanguageModel.model M).
Proof. apply trained_fields. Qed.

(** No model is built for an order below one. *)
Lemma trained_order : 1 ≤ n.
Proof.
  destruct (decide (1 ≤ n)) as [|Hn]; [done|exfalso].
  pose proof trained_create_model as Hc.
  unfold LanguageModel._create_model in Hc. simpl in Hc.
  rewrite decide_False in Hc by lia. unfold LanguageModel._smooth in Hc.
  simpl in Hc. destruct (decide (n = 0)) as [->|Hn0].
  - by rewrite (ngrams_neg tokens (0 - 1)) in Hc by lia.
  - by rewrite (ngrams_neg tokens n) in Hc by lia.
Qed.

Lemma vocab_size_pos : (0 < length (remove_dups tokens))%nat.
Proof.
  rewrite <-size_FreqDist. apply size_FreqDist_pos, preprocess_nonempty.
Qed.

Lemma trained_unigram (g : list string) (p : Q) :
  n = 1 →
  LanguageModel.model M !! g = Some p
  ↔ ∃ t, t ∈ tokens ∧ g = [t]
         ∧ p = (Qcount (occurrences t tokens) / Qcount (length tokens))%Q.
Proof.
  intros Hn. pose proof trained_create_model as Hc.
  unfold LanguageModel._create_model in Hc. simpl in Hc.
  rewrite decide_True in Hc by done.
  assert (HN : ¬ (Qcount (length tokens) == 0)%Q).
  { pose proof (Qcount_ge_1 (length tokens)) as HN.
    pose proof (preprocess_nonempty train n) as Hne. fold tokens in Hne.
    destruct tokens; [done|]. intros H0. rewrite H0 in HN.
    assert (1 <= 0)%Q by (apply HN; simpl; lia). lra. }
  assert (Hinj : ∀ (k1 : string) (c1 : nat) (k2 : string) (c2 : nat),
            [k1] = [k2] → k1 = k2) by (by intros ???? [= ->]).
  rewrite (dict_comprehension_Ok _ _ Hinj _ _ Hc).
  split.
  - intros (t & c & [Ht ->]%lookup_FreqDist & -> & [-> _]%py_div_Ok). eauto.
  - intros (t & Ht & -> & ->). exists t, (occurrences t tokens).
    split; [by apply lookup_FreqDist|]. split; [done|].
    by apply py_div_nonzero.
Qed.

Lemma trained_smoothed (g : list string) (p : Q) :
  1 < n →
  LanguageModel.model M !! g = Some p
  ↔ g ∈ windows (Z.to_nat n) tokens
    ∧ py_div (Qcount (occurrences g (windows (Z.to_nat n) tokens)) + lambda)
             (Qcount (prefix_count tokens n g)
              + lambda * Qcount (length (remove_dups tokens))) = Ok p.
Proof.
  intros Hn. pose proof trained_create_model as Hc.
  unfold LanguageModel._create_model in Hc. simpl in Hc.
  rewrite decide_False in Hc by lia. unfold LanguageModel._smooth in Hc.
  simpl in Hc. rewrite !ngrams_pos in Hc by lia. cbn [bind] in Hc.
  rewrite (dict_comprehension_Ok _ _ (λ k1 _ k2 _ Hk, Hk) _ _ Hc).
  assert (Hprefix : ∀ g', g' ∈ windows (Z.to_nat n) tokens →
            freq (FreqDist (windows (Z.to_nat (n - 1)) tokens)) (removelast g')
            = prefix_count tokens n g').
  { intros g' Hg'. apply elem_of_windows_length in Hg'.
    rewrite freq_FreqDist. unfold prefix_count. rewrite decide_False by lia.
    rewrite (removelast_take g' (Z.to_nat (n - 1))); [done|lia]. }
  rewrite size_FreqDist. split.
  - intros (g' & c & [Hg' ->]%lookup_FreqDist & -> & Hp).
    rewrite Hprefix in Hp by done. done.
  - intros [Hg Hp]. exists g, (occurrences g (windows (Z.to_nat n) tokens)).
    split; [by apply lookup_FreqDist|]. split; [done|].
    by rewrite Hprefix.
Qed.

Lemma trained_smoothed_stored (g : list string) :
  1 < n → g ∈ windows (Z.to_nat n) tokens →
  LanguageModel.model M !! g = Some (laplace_estimate tokens n lambda g).
Proof.
  intros Hn Hg. apply trained_smoothed; [done|]. split; [done|].
  pose proof trained_create_model as Hc.
  unfold LanguageModel._create_model in Hc. simpl in Hc.
  rewrite decide_False in Hc by lia. unfold LanguageModel._smooth in Hc.
  simpl in Hc. rewrite !ngrams_pos in Hc by lia. cbn [bind] in Hc.
  destruct (dict_comprehension_Ok_val _ _ _ _ g
              (occurrences g (windows (Z.to_nat n) tokens)) Hc) as [w Hw].
  { by apply lookup_FreqDist. }
  assert (Hw' : LanguageModel.model M !! g = Some w).
  { apply (dict_comprehension_Ok _ _ (λ k1 _ k2 _ Hk, Hk) _ _ Hc).
    exists g, (occurrences g (windows (Z.to_nat n) tokens)).
    split; [by apply lookup_FreqDist|done]. }
  apply trained_smoothed in Hw' as [_ Hp]; [|done].
  rewrite Hp. f_equal. by apply py_div_Ok in Hp as [-> _].
Qed.
End Trained.

Lemma elem_of_windows_1 {A} (l : list A) (g : list A) :
  g ∈ windows 1 l ↔ ∃ t, t ∈ l ∧ g = [t].
Proof.
  induction l as [|x l IH]; cbn [windows].
  - split; [by inversion 1|by intros (t & Ht & _); inversion Ht].
  - rewrite decide_True by (simpl; lia). rewrite elem_of_cons, IH. split.
    + intros [->|(t & Ht & ->)].
      * exists x. split; [by left|by destruct l].
      * exists t. split; [by right|done].
    + intros (t & [->|Ht]%elem_of_cons & ->).
      * left. by destruct l.
      * right. eauto.
Qed.

(** The unigram model is built whatever the corpus and the constant. *)
Lemma unigram_model_built (train : list string) (lambda : Q) :
  ∃ M, LanguageModel.__init__ train 1 lambda = Ok M.
Proof.
  unfold LanguageModel.__init__, LanguageModel._create_model. simpl.
  destruct (dict_comprehension_total
              (λ unigram (_ : nat), [unigram])
              (λ (_ : string) count,
                 py_div (Qcount count) (Qcount (length (preprocess train 1))))
              (FreqDist (preprocess train 1))) as [tbl ->]; [|by eexists].
  intros t c _. eexists. apply py_div_nonzero.
  pose proof (preprocess_nonempty train 1) as Hne.
  pose proof (Qcount_ge_1 (length (preprocess train 1))) as HN.
  destruct (preprocess train 1); [done|]. intros H0. rewrite H0 in HN.
  assert (1 <= 0)%Q by (apply HN; simpl; lia). lra.
Qed.

(** A model of order above one is built whenever the constant is not
    negative: every stored n-gram has a prefix that occurs, so no denominator
    is zero. *)
Lemma smoothed_model_built (train : list string) (n : Z) (lambda : Q) :
  1 < n → (0 <= lambda)%Q → ∃ M, LanguageModel.__init__ train n lambda = Ok M.
Proof.
  intros Hn Hl.
  unfold LanguageModel.__init__, LanguageModel._create_model. simpl.
  rewrite decide_False by lia. unfold LanguageModel._smooth. simpl.
  rewrite !ngrams_pos by lia. cbn [bind].
  set (tokens := preprocess train n).
  destruct (dict_comprehension_total
              (λ (n_gram : list string) (_ : nat), n_gram)
              (λ n_gram n_count,
                 py_div (Qcount n_count + lambda)
                   (Qcount (freq (FreqDist (windows (Z.to_nat (n - 1)) tokens))
                              (removelast n_gram))
                    + lambda * Qcount (size (FreqDist tokens))))
              (FreqDist (windows (Z.to_nat n) tokens))) as [tbl ->].
  - intros g c [Hg ->]%lookup_FreqDist. eexists. apply py_div_nonzero.
    rewrite freq_FreqDist.
    rewrite (removelast_take g (Z.to_nat (n - 1)))
      by (apply elem_of_windows_length in Hg; lia).
    pose proof (occurrences_windows_prefix (Z.to_nat (n - 1)) tokens g) as Hpre.
    replace (S (Z.to_nat (n - 1))) with (Z.to_nat n) in Hpre by lia.
    apply occurrences_pos in Hg.
    pose proof (Qcount_ge_1 (occurrences (take (Z.to_nat (n - 1)) g)
                  (windows (Z.to_nat (n - 1)) tokens))) as Hm.
    pose proof (Qcount_nonneg (size (FreqDist tokens))) as Hv.
    assert (0 <= lambda * Qcount (size (FreqDist tokens)))%Q
      by (by apply Qmult_le_0_compat).
    assert (1 <= Qcount (occurrences (take (Z.to_nat (n - 1)) g)
                   (windows (Z.to_nat (n - 1)) tokens)))%Q by (apply Hm; lia).
    lra.
  - cbn [bind]. unfold product. rewrite decide_False by lia. by eexists.
Qed.

(** C1. In a trained model of order [n > 1], the probability stored for an
    n-gram observed in the preprocessed training stream is
    (count(ngram) + lambda) / (count(prefix) + lambda * |vocabulary|), the
    prefix being the first [n - 1] tokens, its count taken among the
    (n-1)-grams of the same stream, and the vocabulary being the distinct
    tokens of that stream. *)
Theorem smoothed_probability_stored (train : list string) (n : Z) (lambda : Q)
    (M : LanguageModel.t) (g : list string) :
  LanguageModel.__init__ train n lambda = Ok M →
  1 < n →
  g ∈ windows (Z.to_nat n) (preprocess train n) →
  LanguageModel.model M !! g
  = Some ((Qcount (occurrences g (windows (Z.to_nat n) (preprocess train n)))
           + lambda)
          / (Qcount (occurrences (take (Z.to_nat (n - 1)) g)
                       (windows (Z.to_nat (n - 1)) (preprocess train n)))
             + lambda * Qcount (length (remove_dups (preprocess train n)))))%Q.
Proof.
  intros Hinit Hn Hg.
  rewrite (trained_smoothed_stored train n lambda M Hinit g Hn Hg).
  unfold laplace_estimate, prefix_count. by rewrite decide_False by lia.
Qed.

Lemma smoothed_probability_stored_witness :
  ∃ M, LanguageModel.__init__ ["the cat sat"; "the dog sat"] 2 1 = Ok M
       ∧ 1 < 2
       ∧ ["<s>"; "the"]
         ∈ windows (Z.to_nat 2) (preprocess ["the cat sat"; "the dog sat"] 2)
       ∧ LanguageModel.model M !! ["<s>"; "the"] = Some (3 # 7)%Q.
Proof.
  build_model M Hinit. exists M.
  assert (Hg : ["<s>"; "the"]
               ∈ windows (Z.to_nat 2)
                   (preprocess ["the cat sat"; "the dog sat"] 2))
    by by_evaluation.
  split_and!; [reflexivity|lia|exact Hg|].
  rewrite (smoothed_probability_stored _ _ _ _ ["<s>"; "the"] Hinit);
    [reflexivity|lia|exact Hg].
Defined.

(** C2. In a trained model of order 1, which is built for every corpus and
    every constant, the probability of a token of the stream is its count
    divided by the number of tokens of the stream; the smoothing constant
    plays no part. *)
Theorem unigram_relative_frequency (train : list string) (lambda : Q) (t : string) :
  t ∈ preprocess train 1 →
  ∃ M, LanguageModel.__init__ train 1 lambda = Ok M
       ∧ LanguageModel.model M !! [t]
         = Some (Qcount (occurrences t (preprocess train 1))
                 / Qcount (length (preprocess train 1)))%Q.
Proof.
  intros Ht. destruct (unigram_model_built train lambda) as [M Hinit].
  exists M. split; [done|].
  apply (trained_unigram train 1 lambda M Hinit); [done|]. eauto.
Qed.

Lemma unigram_relative_frequency_witness :
  "the" ∈ preprocess ["the cat sat"; "the dog sat"] 1
  ∧ ∃ M, LanguageModel.__init__ ["the cat sat"; "the dog sat"] 1 1 = Ok M
         ∧ LanguageModel.model M !! ["the"] = Some (2 / 10)%Q.
Proof.
  assert (Hin : "the" ∈ preprocess ["the cat sat"; "the dog sat"] 1)
    by by_evaluation.
  split; [exact Hin|].
  exact (unigram_relative_frequency ["the cat sat"; "the dog sat"] 1 "the" Hin).
Defined.

(** C7. The constructor does not check the order. With [n < 1] construction
    does fail, but with the [ValueError] that the extraction of n-grams
    raises on a negative length, not with a [ConfigurationError]. *)
Theorem invalid_order_value_error (train : list string) (n : Z) (lambda : Q) :
  n < 1 →
  LanguageModel.__init__ train n lambda = Err ValueError
  ∧ LanguageModel.__init__ train n lambda ≠ Err ConfigurationError.
Proof.
  intros Hn.
  assert (LanguageModel.__init__ train n lambda = Err ValueError) as ->; [|done].
  unfold LanguageModel.__init__, LanguageModel._create_model. simpl.
  rewrite decide_False by lia. unfold LanguageModel._smooth. simpl.
  destruct (decide (n = 0)) as [->|Hn0].
  - by rewrite (ngrams_neg _ (0 - 1)) by lia.
  - by rewrite (ngrams_neg _ n) by lia.
Qed.

Lemma invalid_order_value_error_witness :
  0 < 1
  ∧ LanguageModel.__init__ ["the cat sat"; "the dog sat"] 0 1 = Err ValueError
  ∧ LanguageModel.__init__ ["the cat sat"; "the dog sat"] 0 1
    ≠ Err ConfigurationError.
Proof.
  split; [lia|].
  apply (invalid_order_value_error ["the cat sat"; "the dog sat"] 0 1). lia.
Defined.

(** C7 as stated fails: construction with order 0 does not end in a
    [ConfigurationError]. *)
Lemma invalid_order_no_configuration_error :
  LanguageModel.__init__ ["the cat sat"; "the dog sat"] 0 1
  ≠ Err ConfigurationError.
Proof. vm_compute. discriminate. Qed.

(** ** Probabilities of a trained model *)

Section Lookup.
Variables (train : list string) (n : Z) (lambda : Q) (M : LanguageModel.t).
Hypothesis Hinit : LanguageModel.__init__ train n lambda = Ok M.

Let tokens : list string := preprocess train n.

Lemma prefix_count_bound (g : list string) :
  (occurrences g (windows (Z.to_nat n) tokens) ≤ prefix_count tokens n g)%nat
  ∨ n ≤ 1.
Proof.
  destruct (decide (n ≤ 1)) as [|Hn]; [by right|left].
  unfold prefix_count. rewrite decide_False by done.
  replace (Z.to_nat n) with (S (Z.to_nat (n - 1))) by lia.
  apply occurrences_windows_prefix.
Qed.

(** A stored probability lies in (0, 1], provided the constant is not
    negative when the order exceeds one. *)
Lemma stored_in_unit (g : list string) (p : Q) :
  n = 1 ∨ (0 <= lambda)%Q →
  LanguageModel.model M !! g = Some p → (0 < p)%Q ∧ (p <= 1)%Q.
Proof.
  intros Hl Hp. pose proof (trained_order train n lambda M Hinit) as Hn.
  destruct (decide (n = 1)) as [Hn1|Hn1].
  - apply (trained_unigram train n lambda M Hinit g p Hn1) in Hp
      as (t & Ht & -> & ->).
    apply ratio_in_unit.
    + pose proof (Qcount_ge_1 (occurrences t (preprocess train n))) as Hc.
      assert (1 <= Qcount (occurrences t (preprocess train n)))%Q; [|lra].
      by apply Hc, occurrences_pos.
    + apply Qcount_le, occurrences_le_length.
  - destruct Hl as [?|Hl]; [done|].
    apply (trained_smoothed train n lambda M Hinit g p) in Hp
      as [Hg [-> _]%py_div_Ok]; [|lia].
    apply ratio_in_unit.
    + pose proof (Qcount_ge_1 (occurrences g
                    (windows (Z.to_nat n) (preprocess train n)))) as Hc.
      assert (1 <= Qcount (occurrences g
                (windows (Z.to_nat n) (preprocess train n))))%Q; [|lra].
      by apply Hc, occurrences_pos.
    + apply smoothing_terms; [|apply vocab_size_pos|done].
      destruct (prefix_count_bound g); [done|lia].
Qed.

(** An n-gram absent from the table has no occurrence in the stream. *)
Lemma unseen_count (g : list string) :
  LanguageModel.model M !! g = None →
  occurrences g (windows (Z.to_nat n) tokens) = 0%nat.
Proof.
  intros Hnone. pose proof (trained_order train n lambda M Hinit) as Hn.
  destruct (occurrences g (windows (Z.to_nat n) tokens)) eqn:Hc; [done|exfalso].
  assert (Hg : g ∈ windows (Z.to_nat n) tokens) by (apply occurrences_pos; lia).
  destruct (decide (n = 1)) as [->|Hn1].
  - apply elem_of_windows_1 in Hg as (t & Ht & ->).
    assert (is_Some (LanguageModel.model M !! [t])) as [p Hp]; [|congruence].
    eexists. apply (trained_unigram train 1 lambda M Hinit); [done|]. eauto.
  - rewrite (trained_smoothed_stored train n lambda M Hinit g) in Hnone;
      [done|lia|done].
Qed.

(** The lookup of an absent n-gram, for a positive constant. *)
Lemma unseen_probability (g : list string) :
  (0 < lambda)%Q →
  LanguageModel.model M !! g = None →
  probability M g = Ok (laplace_estimate tokens n lambda g)
  ∧ (0 < laplace_estimate tokens n lambda g)%Q
  ∧ (laplace_estimate tokens n lambda g <= 1)%Q.
Proof.
  intros Hl Hnone. pose proof (trained_order train n lambda M Hinit) as Hn.
  destruct (trained_fields train n lambda M Hinit) as (Hn' & Hl' & Ht' & Hv' & _).
  pose proof (unseen_count g Hnone) as Hc.
  pose proof (vocab_size_pos train n) as Hv. fold tokens in Hv.
  assert (Hterms : (Qcount 0 + lambda
                    <= Qcount (prefix_count tokens n g)
                       + lambda * Qcount (length (remove_dups tokens)))%Q).
  { apply smoothing_terms; [lia|done|lra]. }
  assert (Hnum : (0 < Qcount 0 + lambda)%Q)
    by (change (Qcount 0) with 0%Q; lra).
  unfold laplace_estimate. rewrite Hc. split; [|by apply ratio_in_unit].
  unfold probability. rewrite Hnone, Hn', Hl', Ht', Hv'. fold tokens.
  rewrite (ngrams_pos tokens n) by lia. cbn [bind].
  assert (∃ grams, ngrams tokens (n - 1) = Ok grams
               ∧ freq (FreqDist grams) (take (Z.to_nat (n - 1)) g)
                 = prefix_count tokens n g) as (grams & -> & Hm).
  { unfold prefix_count. destruct (decide (n ≤ 1)).
    - replace (n - 1) with 0 by lia. eexists. split; [reflexivity|done].
    - rewrite ngrams_pos by lia. eexists. split; [done|]. apply freq_FreqDist. }
  cbn [bind]. rewrite freq_FreqDist, Hc, Hm, size_FreqDist.
  apply py_div_nonzero. lra.
Qed.
End Lookup.

(** C3, for a positive smoothing constant above order one. In a model
    trained on a non-empty corpus, with [n = 1] or [lambda > 0], every n-gram
    made of vocabulary tokens, seen in training or not, has a probability
    greater than 0 and at most 1. *)
Theorem probability_in_unit_interval (train : list string) (n : Z) (lambda : Q)
    (M : LanguageModel.t) (g : list string) :
  LanguageModel.__init__ train n lambda = Ok M →
  train ≠ [] →
  n = 1 ∨ (0 < lambda)%Q →
  length g = Z.to_nat n →
  Forall (λ t, is_Some (LanguageModel.vocab M !! t)) g →
  ∃ p, probability M g = Ok p ∧ (0 < p)%Q ∧ (p <= 1)%Q.
Proof.
  intros Hinit _ Hl Hlen Hvoc.
  destruct (LanguageModel.model M !! g) as [p|] eqn:Hg.
  - exists p. split; [unfold probability; by rewrite Hg|].
    apply (stored_in_unit train n lambda M Hinit g p); [|done].
    destruct Hl as [?|?]; [by left|right; lra].
  - destruct Hl as [->|Hl].
    + exfalso. destruct g as [|t [|??]]; try done.
      apply Forall_cons in Hvoc as [Ht _].
      destruct (trained_fields train 1 lambda M Hinit) as (_ & _ & _ & Hv & _).
      rewrite Hv in Ht. apply lookup_FreqDist_is_Some in Ht.
      assert (is_Some (LanguageModel.model M !! [t])) as [p Hp]; [|congruence].
      eexists. apply (trained_unigram train 1 lambda M Hinit); [done|]. eauto.
    + destruct (unseen_probability train n lambda M Hinit g Hl Hg) as (Hp & ? & ?).
      eauto.
Qed.

Lemma probability_in_unit_interval_witness :
  ∃ M, LanguageModel.__init__ ["the cat sat"; "the dog sat"] 2 1 = Ok M
       ∧ ["the cat sat"; "the dog sat"] ≠ []
       ∧ (2 = 1 ∨ (0 < 1)%Q)
       ∧ length ["sat"; "the"] = Z.to_nat 2
       ∧ Forall (λ t, is_Some (LanguageModel.vocab M !! t)) ["sat"; "the"]
       ∧ ∃ p, probability M ["sat"; "the"] = Ok p ∧ (0 < p)%Q ∧ (p <= 1)%Q.
Proof.
  build_model M Hinit. exists M.
  assert (Hvoc : Forall (λ t, is_Some (LanguageModel.vocab M !! t))
                   ["sat"; "the"]).
  { pose proof Hinit as Hrun. vm_compute in Hrun. injection Hrun as <-.
    repeat constructor; by_evaluation. }
  split_and!; [reflexivity|discriminate|by right|reflexivity|exact Hvoc|].
  apply (probability_in_unit_interval _ _ _ _ ["sat"; "the"] Hinit);
    [discriminate|by right|reflexivity|exact Hvoc].
Defined.

(** C3 as stated fails for the constant 0: the bigram of two unknown
    markers is made of vocabulary tokens, is absent from the table, and gets
    the probability 0. *)
Lemma probability_zero_without_smoothing :
  ∃ M, LanguageModel.__init__ ["a a"] 2 0 = Ok M
       ∧ Forall (λ t, is_Some (LanguageModel.vocab M !! t)) ["<UNK>"; "<UNK>"]
       ∧ probability M ["<UNK>"; "<UNK>"] = Ok (0 # 2)%Q
       ∧ ¬ (0 < 0 # 2)%Q.
Proof.
  build_model M Hinit. exists M. split; [reflexivity|].
  vm_compute in Hinit. injection Hinit as <-.
  split; [repeat constructor; by_evaluation|].
  split; [vm_compute; reflexivity|]. intros H. discriminate H.
Qed.




(** ** Generation does not depend on the order of the walk *)














(** * Further properties of preprocessing *)

(** ** Cutting and joining *)

Lemma cons_first_app (c : ascii) (l1 l2 : list string) :
  l1 ≠ [] → cons_first c (l1 ++ l2) = cons_first c l1 ++ l2.
Proof. by destruct l1. Qed.

(** A cut at [sep] falls between the fields of what precedes it and the
    fields of what follows it. *)
Lemma str_split_app_sep (sep : ascii) (a b : string) :
  str_split sep (a +:+ String sep b) = str_split sep a ++ str_split sep b.
Proof.
  induction a as [|c a IH].
  - rewrite append_nil. simpl. by rewrite Ascii.eqb_refl.
  - rewrite append_cons. simpl. rewrite IH.
    destruct (Ascii.eqb c sep); [done|].
    apply cons_first_app, str_split_nonempty.
Qed.

Lemma str_join_cons2 (sep p q : string) (ps : list string) :
  str_join sep (p :: q :: ps) = p +:+ sep +:+ str_join sep (q :: ps).
Proof. reflexivity. Qed.

Lemma str_split_join (sep : ascii) (parts : list string) :
  parts ≠ [] →
  str_split sep (str_join (String sep "") parts)
  = concat (str_split sep <$> parts).
Proof.
  induction parts as [|p [|q ps] IH]; intros Hne; [done| |].
  - simpl. by rewrite app_nil_r.
  - rewrite str_join_cons2. rewrite append_cons, append_nil.
    rewrite str_split_app_sep, IH by done. reflexivity.
Qed.

Lemma str_join_split (sep : ascii) (s : string) :
  str_join (String sep "") (str_split sep s) = s.
Proof.
  induction s as [|c s IH]; [done|]. simpl.
  pose proof (str_split_nonempty sep s) as Hne.
  destruct (str_split sep s) as [|w ws]; [done|].
  destruct (Ascii.eqb c sep) eqn:Hc.
  - apply Ascii.eqb_eq in Hc as ->. rewrite str_join_cons2, IH. reflexivity.
  - simpl cons_first. destruct ws as [|w' ws].
    + simpl in *. by rewrite IH.
    + rewrite str_join_cons2 in *. rewrite append_cons. by rewrite IH.
Qed.

Lemma str_split_no_sep (sep : ascii) (s : string) :
  Forall (λ field, has_char sep field = false) (str_split sep s).
Proof.
  induction s as [|c s IH]; simpl; [by repeat constructor|].
  destruct (Ascii.eqb c sep) eqn:Hc; [by constructor|].
  destruct (str_split sep s) as [|w ws]; simpl.
  - repeat constructor. simpl. by rewrite Hc.
  - apply Forall_cons in IH as [Hw Hws]. constructor; [|done].
    simpl. by rewrite Hc.
Qed.

Lemma str_split_markers (k : nat) (s : string) :
  str_split " " (str_repeat "<s> " k +:+ s)
  = replicate k "<s>" ++ str_split " " s.
Proof.
  induction k as [|k IH]; [done|].
  simpl str_repeat. rewrite append_assoc.
  change ("<s> " +:+ str_repeat "<s> " k +:+ s)
    with ("<s>" +:+ String " " (str_repeat "<s> " k +:+ s)).
  by rewrite str_split_app_sep, IH.
Qed.

Lemma str_split_wrapped (n : Z) (s : string) :
  str_split " "
    ((if decide (1 < n) then str_mul SOS (n - 1) else SOS) +:+ s +:+ " " +:+ EOS)
  = replicate (start_markers n) "<s>" ++ str_split " " s ++ ["</s>"].
Proof.
  assert ((if decide (1 < n) then str_mul SOS (n - 1) else SOS)
          = str_repeat "<s> " (start_markers n)) as ->.
  { unfold start_markers, str_mul. by destruct (decide (1 < n)). }
  rewrite str_split_markers. f_equal.
  change (s +:+ " " +:+ EOS) with (s +:+ String " " "</s>").
  by rewrite str_split_app_sep.
Qed.

(** X1. For a non-empty list of sentences and any order, the raw token
    stream is the concatenation, sentence by sentence, of the start markers
    ([n - 1] of them when [n > 1], one otherwise), the fields of the sentence
    cut at every single space, and one end marker. *)
Theorem raw_tokens_by_sentence (sentences : list string) (n : Z) :
  sentences ≠ [] →
  raw_tokens sentences n
  = concat ((λ s, replicate (start_markers n) "<s>"
                    ++ str_split " " s ++ ["</s>"]) <$> sentences).
Proof.
  intros Hne. unfold raw_tokens, add_sentence_tokens.
  rewrite (str_split_join " ") by (by destruct sentences).
  rewrite <-list_fmap_compose. f_equal.
  apply list_fmap_ext. intros _ s _. apply str_split_wrapped.
Qed.

Lemma raw_tokens_by_sentence_witness :
  ["a b"; " c"] ≠ []
  ∧ raw_tokens ["a b"; " c"] 3
    = ["<s>"; "<s>"; "a"; "b"; "</s>"; "<s>"; "<s>"; ""; "c"; "</s>"].
Proof.
  split; [discriminate|].
  rewrite (raw_tokens_by_sentence ["a b"; " c"] 3); [reflexivity|discriminate].
Defined.

(** X2. Nothing of the text is lost by the cut: joining the raw tokens with
    single spaces gives back the join of the wrapped sentences. *)
Theorem raw_tokens_join (sentences : list string) (n : Z) :
  str_join " " (raw_tokens sentences n)
  = str_join " " (add_sentence_tokens sentences n).
Proof. apply (str_join_split " "). Qed.

(** X3. No token of the preprocessed stream holds a space. *)
Theorem preprocess_tokens_no_space (sentences : list string) (n : Z) :
  Forall (λ token, has_char " " token = false) (preprocess sentences n).
Proof.
  rewrite preprocess_raw_tokens, replace_singletons_fmap.
  apply Forall_fmap. eapply Forall_impl; [apply (str_split_no_sep " ")|].
  intros token Htoken. simpl. by case_decide.
Qed.

(** ** Replacing singletons, seen from the input *)

(** X4. [replace_singletons] is idempotent: a second pass changes nothing,
    even when the first pass produced a single unknown marker. *)
Theorem replace_singletons_idempotent (tokens : list string) :
  replace_singletons (replace_singletons tokens) = replace_singletons tokens.
Proof.
  rewrite (replace_singletons_fmap (replace_singletons tokens)).
  etrans; [|apply list_fmap_id].
  apply list_fmap_ext. intros i t Hi. simpl.
  case_decide as Hocc; [done|].
  destruct (decide (t = UNK)) as [->|Ht]; [done|exfalso].
  apply Hocc. assert (Hin : t ∈ replace_singletons tokens)
    by (apply list_elem_of_lookup; eauto).
  pose proof (replace_singletons_twice t tokens Hin Ht). lia.
Qed.

Lemma occurrences_replicate_ne {A} `{EqDecision A} (x y : A) (k : nat) :
  x ≠ y → occurrences x (replicate k y) = 0%nat.
Proof.
  intros Hne. induction k as [|k IH]; [done|].
  simpl. rewrite occurrences_cons, IH. by rewrite decide_False.
Qed.

(** X5. The markers are not exempt from the replacement: in the stream of a
    corpus of one sentence, whatever the order, there is no end marker left
    (unless the sentence itself holds one as a word). *)
Theorem single_sentence_loses_end_marker (s : string) (n : Z) :
  "</s>" ∉ str_split " " s →
  "</s>" ∉ preprocess [s] n.
Proof.
  intros Hs Hin. apply occurrences_pos in Hin.
  rewrite preprocess_raw_tokens, occurrences_replace_singletons in Hin by done.
  rewrite raw_tokens_by_sentence in Hin by done. simpl in Hin.
  rewrite app_nil_r, !occurrences_app in Hin.
  assert (occurrences "</s>" (replicate (start_markers n) "<s>") = 0%nat) as H0
    by (by apply occurrences_replicate_ne).
  assert (occurrences "</s>" (str_split " " s) = 0%nat) as H1.
  { destruct (occurrences "</s>" (str_split " " s)) eqn:Hc; [done|].
    destruct Hs. apply occurrences_pos. lia. }
  rewrite H0, H1 in Hin. vm_compute in Hin. lia.
Qed.

Lemma single_sentence_loses_end_marker_witness :
  ("</s>" ∉ str_split " " "the cat sat on the mat the end")
  ∧ ("</s>" ∉ preprocess ["the cat sat on the mat the end"] 2).
Proof.
  assert (Hs : "</s>" ∉ str_split " " "the cat sat on the mat the end")
    by by_evaluation.
  split; [exact Hs|].
  exact (single_sentence_loses_end_marker _ 2 Hs).
Defined.

(** X6. A sentence that starts with a space (as the sentences after the
    first of a line do, once the line is cut at its periods) puts an
    empty-string token into the raw stream; with two such sentences the
    empty string is a token of the preprocessed stream. *)
Theorem leading_space_gives_empty_token (before between after : list string)
    (s1 s2 : string) (n : Z) :
  "" ∈ raw_tokens (before ++ String " " s1 :: after) n
  ∧ "" ∈ preprocess
           (before ++ String " " s1 :: between ++ String " " s2 :: after) n.
Proof.
  set (F := λ s, replicate (start_markers n) "<s>" ++ str_split " " s ++ ["</s>"]).
  assert (Hfield : ∀ s, (1 ≤ occurrences "" (F (String " " s)))%nat).
  { intros s. unfold F. rewrite !occurrences_app. simpl str_split.
    rewrite occurrences_cons, decide_True by done. lia. }
  split.
  - rewrite raw_tokens_by_sentence by (by destruct before). fold F.
    apply occurrences_pos. rewrite fmap_app, fmap_cons, concat_app, concat_cons.
    rewrite !occurrences_app. specialize (Hfield s1). lia.
  - apply occurrences_pos.
    rewrite preprocess_raw_tokens, occurrences_replace_singletons by done.
    rewrite raw_tokens_by_sentence by (by destruct before). fold F.
    rewrite fmap_app, fmap_cons, fmap_app, fmap_cons.
    rewrite concat_app, concat_cons, concat_app, concat_cons.
    rewrite !occurrences_app.
    pose proof (Hfield s1). pose proof (Hfield s2). case_decide; lia.
Qed.

(** * Further properties of the model *)

(** ** The vocabulary *)

Section Totals.
Context `{Countable K}.
Implicit Types (fd : gmap K nat) (l : list K).

Lemma total_insert_fresh fd x c :
  fd !! x = None →
  sum_list ((map_to_list (<[x := c]> fd)).*2)
  = (c + sum_list ((map_to_list fd).*2))%nat.
Proof. intros Hx. by rewrite map_to_list_insert. Qed.

Lemma total_count_up fd x :
  sum_list ((map_to_list (<[x := S (freq fd x)]> fd)).*2)
  = S (sum_list ((map_to_list fd).*2)).
Proof.
  unfold freq. destruct (fd !! x) as [c|] eqn:Hx; simpl.
  - rewrite <-(insert_delete_eq fd).
    rewrite <-(insert_delete_id fd x c Hx) at 2.
    rewrite !total_insert_fresh by apply lookup_delete_eq. lia.
  - by rewrite total_insert_fresh.
Qed.

Lemma total_fold l fd :
  sum_list ((map_to_list
               (fold_left (λ fd y, <[y := S (freq fd y)]> fd) l fd)).*2)
  = (sum_list ((map_to_list fd).*2) + length l)%nat.
Proof.
  revert fd. induction l as [|x l IH]; intros fd; simpl; [lia|].
  rewrite IH, total_count_up. lia.
Qed.

(** The counts of a frequency table add up to the number of samples. *)
Lemma total_FreqDist l : sum_list ((map_to_list (FreqDist l)).*2) = length l.
Proof. unfold FreqDist. by rewrite total_fold, map_to_list_empty. Qed.

Lemma size_FreqDist_le l : (size (FreqDist l) ≤ length l)%nat.
Proof.
  rewrite <-total_FreqDist, <-length_map_to_list, <-(length_fmap snd).
  assert (Hpos : Forall (λ c, 1 ≤ c)%nat ((map_to_list (FreqDist l)).*2)).
  { apply Forall_fmap, Forall_forall. intros [x c] Hxc%elem_of_map_to_list.
    apply lookup_FreqDist in Hxc as [Hx ->]. simpl.
    by apply occurrences_pos in Hx. }
  induction Hpos as [|c cs Hc _ IH]; simpl; lia.
Qed.
End Totals.

(** X7. In a trained model the vocabulary accounts for every token of the
    stream: its counts add up to the length of the stream, and the number of
    its entries is at least one and at most that length. *)
Theorem vocabulary_accounts_for_stream (train : list string) (n : Z) (lambda : Q)
    (M : LanguageModel.t) :
  LanguageModel.__init__ train n lambda = Ok M →
  sum_list ((map_to_list (LanguageModel.vocab M)).*2)
  = length (LanguageModel.tokens M)
  ∧ (1 ≤ size (LanguageModel.vocab M) ≤ length (LanguageModel.tokens M))%nat.
Proof.
  intros Hinit.
  destruct (trained_fields train n lambda M Hinit) as (_ & _ & -> & -> & _).
  split; [apply total_FreqDist|]. split; [|apply size_FreqDist_le].
  apply size_FreqDist_pos, preprocess_nonempty.
Qed.

Lemma vocabulary_accounts_for_stream_witness :
  ∃ M, LanguageModel.__init__ ["the cat sat"; "the dog sat"] 2 1 = Ok M
       ∧ sum_list ((map_to_list (LanguageModel.vocab M)).*2) = 10%nat
       ∧ size (LanguageModel.vocab M) = 5%nat.
Proof.
  build_model M Hinit. exists M. split; [reflexivity|].
  destruct (vocabulary_accounts_for_stream _ _ _ _ Hinit) as [-> _].
  vm_compute in Hinit. injection Hinit as <-. split; reflexivity.
Defined.

(** ** The keys of the table *)

(** X8. The table of a trained model has an entry for an n-gram exactly when
    the n-gram is a window of [n] consecutive tokens of the stream; any other
    lookup in it is a miss. *)
Theorem table_keys_are_windows (train : list string) (n : Z) (lambda : Q)
    (M : LanguageModel.t) (g : list string) :
  LanguageModel.__init__ train n lambda = Ok M →
  is_Some (LanguageModel.model M !! g)
  ↔ g ∈ windows (Z.to_nat n) (preprocess train n).
Proof.
  intros Hinit. pose proof (trained_order train n lambda M Hinit) as Hn.
  destruct (decide (n = 1)) as [->|Hn1].
  - change (Z.to_nat 1) with 1%nat. rewrite elem_of_windows_1. split.
    + intros [p Hp].
      apply (trained_unigram train 1 lambda M Hinit) in Hp
        as (t & Ht & -> & _); eauto.
    + intros (t & Ht & ->). eexists.
      apply (trained_unigram train 1 lambda M Hinit); eauto.
  - split.
    + intros [p Hp].
      by apply (trained_smoothed train n lambda M Hinit) in Hp as [Hg _]; [|lia].
    + intros Hg. eexists.
      apply (trained_smoothed_stored train n lambda M Hinit); [lia|done].
Qed.

Lemma table_keys_are_windows_witness :
  ∃ M, LanguageModel.__init__ ["the cat sat"; "the dog sat"] 2 1 = Ok M
       ∧ is_Some (LanguageModel.model M !! ["sat"; "</s>"])
       ∧ LanguageModel.model M !! ["sat"; "the"] = None.
Proof.
  build_model M Hinit. exists M. split; [reflexivity|]. split.
  - apply (table_keys_are_windows _ _ _ _ _ Hinit). by_evaluation.
  - apply eq_None_not_Some.
    intros Hin%(table_keys_are_windows _ _ _ _ _ Hinit).
    revert Hin. apply (bool_decide_unpack _). vm_compute. exact I.
Defined.

(** ** The masks *)

Section Tuples.
Context {A : Type}.
Implicit Types (a b : A) (k : nat) (m : list A).

Lemma tuples_pair_S a b k :
  tuples [a; b] (S k)
  = ((a ::.) <$> tuples [a; b] k) ++ ((b ::.) <$> tuples [a; b] k).
Proof. simpl. by rewrite app_nil_r. Qed.

Lemma length_tuples_pair a b k : length (tuples [a; b] k) = (2 ^ k)%nat.
Proof.
  induction k as [|k IH]; [done|].
  rewrite tuples_pair_S, length_app, !length_fmap, IH. simpl. lia.
Qed.

Lemma elem_of_tuples_pair a b k m :
  m ∈ tuples [a; b] k ↔ length m = k ∧ Forall (λ x, x = a ∨ x = b) m.
Proof.
  revert m. induction k as [|k IH]; intros m.
  - simpl. rewrite list_elem_of_singleton. split.
    + intros ->. by split.
    + intros [Hm _]. by destruct m.
  - rewrite tuples_pair_S, elem_of_app, !list_elem_of_fmap. split.
    + intros [(m' & -> & Hm')|(m' & -> & Hm')]; apply IH in Hm' as [<- Hall];
        (split; [done|constructor; auto]).
    + intros [Hlen Hall]. destruct m as [|x m]; [done|].
      apply Forall_cons in Hall as [[-> | ->] Hall]; [left|right];
        (exists m; split; [done|]; apply IH; split; [by injection Hlen|done]).
Qed.

Lemma NoDup_tuples_pair a b k : a ≠ b → NoDup (tuples [a; b] k).
Proof.
  intros Hab. induction k as [|k IH]; [apply NoDup_singleton|].
  rewrite tuples_pair_S. apply NoDup_app. split_and!.
  - by apply (NoDup_fmap_2 _).
  - intros m (m1 & -> & _)%list_elem_of_fmap (m2 & [= ? ?] & _)%list_elem_of_fmap.
    done.
  - by apply (NoDup_fmap_2 _).
Qed.

Lemma head_tuples_pair a b k : head (tuples [a; b] k) = Some (replicate k a).
Proof.
  induction k as [|k IH]; [done|]. rewrite tuples_pair_S.
  destruct (tuples [a; b] k) as [|m ms]; [done|]. simpl in *. by simplify_eq.
Qed.

Lemma last_tuples_pair a b k : last (tuples [a; b] k) = Some (replicate k b).
Proof.
  induction k as [|k IH]; [done|]. rewrite tuples_pair_S.
  rewrite last_app, fmap_last, IH. done.
Qed.
End Tuples.

(** X9. The masks of a trained model of order [n] are the [2 ^ n] tuples of
    [n] bits, each once, the tuple of ones first and the tuple of zeros
    last. *)
Theorem masks_are_all_bit_tuples (train : list string) (n : Z) (lambda : Q)
    (M : LanguageModel.t) :
  LanguageModel.__init__ train n lambda = Ok M →
  length (LanguageModel.masks M) = (2 ^ Z.to_nat n)%nat
  ∧ NoDup (LanguageModel.masks M)
  ∧ (∀ m, m ∈ LanguageModel.masks M
          ↔ length m = Z.to_nat n ∧ Forall (λ b, b = 0 ∨ b = 1) m)
  ∧ head (LanguageModel.masks M) = Some (replicate (Z.to_nat n) 1)
  ∧ last (LanguageModel.masks M) = Some (replicate (Z.to_nat n) 0).
Proof.
  intros Hinit. pose proof (trained_order train n lambda M Hinit) as Hn.
  assert (LanguageModel.masks M = reverse (tuples [0; 1] (Z.to_nat n))) as ->.
  { unfold LanguageModel.__init__ in Hinit.
    destruct (LanguageModel._create_model _) as [tbl|]; [|done].
    cbn [bind] in Hinit. unfold product in Hinit.
    rewrite decide_False in Hinit by lia. cbn [bind] in Hinit.
    by injection Hinit as <-. }
  split_and!.
  - by rewrite length_reverse, length_tuples_pair.
  - rewrite reverse_Permutation. by apply NoDup_tuples_pair.
  - intros m. by rewrite elem_of_reverse, elem_of_tuples_pair.
  - by rewrite head_reverse, last_tuples_pair.
  - by rewrite last_reverse, head_tuples_pair.
Qed.

Lemma masks_are_all_bit_tuples_witness :
  ∃ M, LanguageModel.__init__ ["the cat sat"; "the dog sat"] 3 1 = Ok M
       ∧ length (LanguageModel.masks M) = 8%nat
       ∧ head (LanguageModel.masks M) = Some [1; 1; 1].
Proof.
  build_model M Hinit. exists M. split; [reflexivity|].
  destruct (masks_are_all_bit_tuples _ _ _ _ Hinit) as (-> & _ & _ & -> & _).
  split; reflexivity.
Defined.

(** ** When construction succeeds and when it fails *)

(** X10. For every order [n >= 1] and every constant that is not negative,
    construction succeeds, whatever the corpus. *)
Theorem construction_succeeds (train : list string) (n : Z) (lambda : Q) :
  1 ≤ n → (0 <= lambda)%Q →
  ∃ M, LanguageModel.__init__ train n lambda = Ok M.
Proof.
  intros Hn Hl. destruct (decide (n = 1)) as [->|Hn1].
  - apply unigram_model_built.
  - apply smoothed_model_built; [lia|done].
Qed.

Lemma construction_succeeds_witness :
  1 ≤ 4 ∧ (0 <= 0)%Q
  ∧ ∃ M, LanguageModel.__init__ ["the cat sat"; "the dog sat"] 4 0 = Ok M.
Proof.
  split; [lia|]. split; [apply Qle_refl|].
  apply (construction_succeeds _ 4 0); [lia|apply Qle_refl].
Defined.

(** X11. For an order above one, construction fails exactly when the
    denominator of some n-gram of the stream is zero, and then with a
    [ZeroDivisionError]; for an order of at least one it fails in no other
    way. *)
Theorem construction_failure (train : list string) (n : Z) (lambda : Q) (e : exn) :
  1 ≤ n →
  LanguageModel.__init__ train n lambda = Err e
  ↔ e = ZeroDivisionError ∧ 1 < n
    ∧ ∃ g, g ∈ windows (Z.to_nat n) (preprocess train n)
           ∧ (Qcount (prefix_count (preprocess train n) n g)
              + lambda * Qcount (length (remove_dups (preprocess train n)))
              == 0)%Q.
Proof.
  intros Hn.
  assert (Hfail : ∀ e', LanguageModel.__init__ train n lambda = Err e' →
            e' = ZeroDivisionError ∧ 1 < n
            ∧ ∃ g, g ∈ windows (Z.to_nat n) (preprocess train n)
                   ∧ (Qcount (prefix_count (preprocess train n) n g)
                      + lambda
                        * Qcount (length (remove_dups (preprocess train n)))
                      == 0)%Q).
  { intros e' Hinit. destruct (decide (n = 1)) as [->|Hn1].
    { destruct (unigram_model_built train lambda) as [M HM]. congruence. }
    unfold LanguageModel.__init__, LanguageModel._create_model in Hinit.
    simpl in Hinit. rewrite decide_False in Hinit by done.
    unfold LanguageModel._smooth, product in Hinit. simpl in Hinit.
    rewrite !ngrams_pos in Hinit by lia. cbn [bind] in Hinit.
    rewrite (decide_False (P := n < 0)) in Hinit by lia.
    destruct (dict_comprehension _ _ _) as [tbl|e''] eqn:Htbl; [done|].
    cbn [bind] in Hinit. injection Hinit as ->.
    apply dict_comprehension_Err in Htbl
      as (g & c & [Hg ->]%lookup_FreqDist & [-> Hzero]%py_div_Err).
    split; [done|]. split; [lia|]. exists g. split; [done|].
    rewrite freq_FreqDist, size_FreqDist in Hzero.
    rewrite (removelast_take g (Z.to_nat (n - 1))) in Hzero
      by (apply elem_of_windows_length in Hg; lia).
    unfold prefix_count. by rewrite decide_False by lia. }
  split; [apply Hfail|].
  intros (-> & Hn1 & g & Hg & Hzero).
  destruct (LanguageModel.__init__ train n lambda) as [M|e'] eqn:Hinit.
  - exfalso.
    pose proof (trained_smoothed_stored train n lambda M Hinit g Hn1 Hg) as Hp.
    apply (trained_smoothed train n lambda M Hinit) in Hp as [_ Hp]; [|done].
    by apply py_div_Ok in Hp as [_ Hnz].
  - by destruct (Hfail e' eq_refl) as (-> & _).
Qed.

Lemma construction_failure_witness :
  1 ≤ 2
  ∧ LanguageModel.__init__ ["a a"] 2 (-1) = Err ZeroDivisionError.
Proof.
  split; [lia|].
  apply (construction_failure ["a a"] 2 (-1) ZeroDivisionError); [lia|].
  split; [done|]. split; [lia|]. exists ["<UNK>"; "a"].
  split; [by_evaluation|reflexivity].
Defined.

(** X12. A model built on no sentence at all has the unknown marker as its
    whole stream and vocabulary; its table holds that marker with
    probability one when [n = 1] and is empty when [n > 1], whatever the
    constant. *)
Theorem empty_corpus_model (n : Z) (lambda : Q) :
  1 ≤ n →
  ∃ M, LanguageModel.__init__ [] n lambda = Ok M
       ∧ LanguageModel.tokens M = ["<UNK>"]
       ∧ LanguageModel.vocab M = {["<UNK>" := 1%nat]}
       ∧ LanguageModel.model M
         = if decide (n = 1) then {[ ["<UNK>"] := (1 / 1)%Q ]} else ∅.
Proof.
  intros Hn. unfold LanguageModel.__init__, LanguageModel._create_model.
  rewrite preprocess_empty. simpl.
  assert (Hvocab : FreqDist ["<UNK>"] = ({["<UNK>" := 1%nat]} : gmap string nat))
    by reflexivity.
  unfold product. rewrite (decide_False (P := n < 0)) by lia.
  destruct (decide (n = 1)) as [->|Hn1].
  - eexists. split; [reflexivity|]. split; [done|]. split; [done|].
    vm_compute. reflexivity.
  - unfold LanguageModel._smooth. simpl. rewrite !ngrams_pos by lia.
    cbn [bind]. assert (windows (Z.to_nat n) ["<UNK>"] = []) as ->.
    { simpl. rewrite decide_False by lia. done. }
    eexists. split; [reflexivity|]. done.
Qed.

Lemma empty_corpus_model_witness :
  1 ≤ 2
  ∧ ∃ M, LanguageModel.__init__ [] 2 (-1) = Ok M
         ∧ LanguageModel.model M = ∅.
Proof.
  split; [lia|].
  destruct (empty_corpus_model 2 (-1)) as (M & HM & _ & _ & Hmodel); [lia|].
  exists M. split; [exact HM|]. exact Hmodel.
Defined.

(** ** The stored probabilities *)









(** * The exploratory cells *)

(** ** Removing the n-grams of stop words *)

Section Removal.
Variable stop_words : gset string.

Let count_step (count : Z) (word : string) : Z :=
  if decide (word ∈ stop_words) then py_or count 0 else py_or count 1.

Lemma count_step_spec (count : Z) (word : string) :
  count = 0 ∨ count = 1 →
  (count_step count word = 0 ∨ count_step count word = 1)
  ∧ (count_step count word = 1 ↔ count = 1 ∨ word ∉ stop_words).
Proof.
  unfold count_step, py_or.
  intros [-> | ->]; destruct (decide (word ∈ stop_words)); simpl;
    (split; [auto|]); split; auto; intros [?|?]; done.
Qed.

Lemma count_loop (pair : list string) (count : Z) :
  count = 0 ∨ count = 1 →
  fold_left count_step pair count = 1
  ↔ count = 1 ∨ Exists (λ w, w ∉ stop_words) pair.
Proof.
  revert count. induction pair as [|w pair IH]; intros count Hc; simpl.
  - rewrite Exists_nil. tauto.
  - destruct (count_step_spec count w Hc) as [Hstep Hone].
    rewrite (IH _ Hstep), Hone, Exists_cons. tauto.
Qed.

Lemma removal_fold (x y : list (list string)) :
  fold_left
    (λ y pair,
       if decide (fold_left count_step pair 0 = 1) then y ++ [pair] else y)
    x y
  = y ++ filter (λ pair, Exists (λ w, w ∉ stop_words) pair) x.
Proof.
  revert y. induction x as [|pair x IH]; intros y; simpl.
  - by rewrite app_nil_r.
  - rewrite IH, filter_cons.
    assert (Hiff : fold_left count_step pair 0 = 1
                   ↔ Exists (λ w, w ∉ stop_words) pair).
    { rewrite count_loop by (by left). split; [by intros [?|?]|by right]. }
    destruct (decide (Exists (λ w, w ∉ stop_words) pair)) as [Hex|Hex].
    + rewrite decide_True by (by apply Hiff). by rewrite <-app_assoc.
    + by rewrite decide_False by (by rewrite Hiff).
Qed.

(** X15. [removal] keeps, in their order, exactly the n-grams that hold at
    least one word outside the stop list; an n-gram of stop words only, and
    the empty tuple, are dropped. *)
Theorem removal_keeps_content_ngrams (x : list (list string)) :
  removal stop_words x
  = filter (λ pair, Exists (λ w, w ∉ stop_words) pair) x.
Proof. unfold removal. apply (removal_fold x []). Qed.

(** X16. [removal] is idempotent and works n-gram by n-gram: applying it to
    a concatenation is applying it to each part. *)
Theorem removal_composes (x y : list (list string)) :
  removal stop_words (removal stop_words x) = removal stop_words x
  ∧ removal stop_words (x ++ y) = removal stop_words x ++ removal stop_words y.
Proof.
  rewrite !removal_keeps_content_ngrams. split.
  - induction x as [|pair x IH]; [done|].
    rewrite filter_cons. case_decide; [|done].
    rewrite filter_cons. rewrite decide_True by done. by rewrite IH.
  - apply filter_app.
Qed.
End Removal.

(** ** Loading the data *)

Lemma elem_of_concat {A} (x : A) (ls : list (list A)) :
  x ∈ concat ls ↔ ∃ l, x ∈ l ∧ l ∈ ls.
Proof.
  induction ls as [|l ls IH]; simpl.
  - split; [by inversion 1|by intros (l & _ & Hl); inversion Hl].
  - rewrite elem_of_app, IH. split.
    + intros [Hx|(l' & Hx & Hl')]; [exists l; split; [done|by left]|].
      exists l'. split; [done|by right].
    + intros (l' & Hx & [->|Hl']%elem_of_cons); [by left|right; eauto].
Qed.

(** X17. No sentence that [load_data] returns is empty, and none holds a
    period. *)
Theorem load_data_sentences (lines : list string) :
  Forall (λ s, s ≠ "" ∧ has_char "." s = false) (load_data lines).
Proof.
  unfold load_data. apply Forall_forall. intros s.
  rewrite list_elem_of_filter. intros [Hne Hin]. split; [done|].
  apply elem_of_concat in Hin as (fields & Hs & Hfields).
  apply list_elem_of_fmap in Hfields as (l & -> & _).
  pose proof (str_split_no_sep "." (strip l)) as Hall.
  rewrite Forall_forall in Hall. by apply Hall.
Qed.

Lemma has_char_append (c : ascii) (s1 s2 : string) :
  has_char c (s1 +:+ s2) = has_char c s1 || has_char c s2.
Proof.
  induction s1 as [|c1 s1 IH]; [done|].
  rewrite append_cons. simpl. by rewrite IH, orb_assoc.
Qed.

Lemma has_char_fields (c sep : ascii) (s : string) :
  has_char c s = false →
  Forall (λ field, has_char c field = false) (str_split sep s).
Proof.
  induction s as [|c' s IH]; simpl; [by repeat constructor|].
  intros [Hc' Hs]%orb_false_iff. specialize (IH Hs).
  destruct (Ascii.eqb c' sep); [by constructor|].
  destruct (str_split sep s) as [|w ws]; simpl.
  - repeat constructor. simpl. by rewrite Hc'.
  - apply Forall_cons in IH as [Hw Hws]. constructor; [|done].
    simpl. by rewrite Hc', Hw.
Qed.

Lemma has_char_markers (c : ascii) (k : nat) :
  has_char c "<s> " = false → has_char c (str_repeat "<s> " k) = false.
Proof.
  intros Hc. induction k as [|k IH]; [done|].
  simpl str_repeat. by rewrite has_char_append, Hc, IH.
Qed.

Lemma has_char_join (c : ascii) (sep : string) (parts : list string) :
  has_char c sep = false →
  Forall (λ part, has_char c part = false) parts →
  has_char c (str_join sep parts) = false.
Proof.
  intros Hsep Hparts. induction Hparts as [|p ps Hp _ IH]; [done|].
  destruct ps as [|q ps]; [done|].
  by rewrite str_join_cons2, !has_char_append, Hp, Hsep, IH.
Qed.

(** X18. The data that [load_data] returns, once preprocessed, gives a
    stream in which no token holds a period. *)
Theorem loaded_stream_has_no_period (lines : list string) (n : Z) :
  Forall (λ token, has_char "." token = false)
    (preprocess (load_data lines) n).
Proof.
  rewrite preprocess_raw_tokens, replace_singletons_fmap.
  apply Forall_fmap.
  assert (Hraw : Forall (λ token, has_char "." token = false)
                   (raw_tokens (load_data lines) n)).
  { unfold raw_tokens. apply has_char_fields, has_char_join; [done|].
    unfold add_sentence_tokens. apply Forall_fmap.
    eapply Forall_impl; [apply load_data_sentences|].
    intros s [_ Hs]. simpl. rewrite !has_char_append, Hs.
    case_decide; [|done]. unfold str_mul. by rewrite has_char_markers. }
  eapply Forall_impl; [exact Hraw|].
  intros token Htoken. simpl. by case_decide.
Qed.

(** ** The loop that removes periods while it walks the list *)

Lemma list_remove_first (x : string) (pre l : list string) :
  Forall (λ y, y ≠ x) pre → list_remove x (pre ++ x :: l) = Ok (pre ++ l).
Proof.
  induction 1 as [|y pre Hy _ IH]; simpl.
  - by rewrite decide_True.
  - by rewrite decide_False, IH.
Qed.

Lemma list_remove_elem (x : string) (l : list string) :
  x ∈ l →
  ∃ l', list_remove x l = Ok l'
        ∧ length l = S (length l')
        ∧ filter (λ y, y ≠ x) l' = filter (λ y, y ≠ x) l.
Proof.
  induction l as [|y l IH]; [by inversion 1|]. simpl.
  destruct (decide (y = x)) as [->|Hne].
  - intros _. exists l. split; [done|]. split; [done|].
    by rewrite filter_cons_False by (by intros ?).
  - intros [?|Hin]%elem_of_cons; [congruence|].
    destruct (IH Hin) as (l' & -> & Hlen & Hfilter). simpl.
    exists (y :: l'). split; [done|]. split; [simpl; lia|].
    by rewrite !filter_cons, Hfilter.
Qed.

Lemma period_loop_from_S (steps : nat) (sequence : list string) (i : nat)
    (unigram : list string) :
  period_loop_from (S steps) sequence i unigram
  = match sequence !! i with
    | None => Some (Ok (sequence, unigram))
    | Some word =>
        if decide (word = ".") then
          match list_remove word sequence with
          | Ok sequence' => period_loop_from steps sequence' (S i) unigram
          | Err e => Some (Err e)
          end
        else period_loop_from steps sequence (S i) (unigram ++ [word])
    end.
Proof. reflexivity. Qed.

Lemma period_loop_invariant (steps : nat) (sequence : list string) (i : nat)
    (unigram : list string) :
  (length sequence ≤ i + steps)%nat →
  ∃ sequence' added,
    period_loop_from steps sequence i unigram
    = Some (Ok (sequence', unigram ++ added))
    ∧ filter (λ w, w ≠ ".") sequence' = filter (λ w, w ≠ ".") sequence
    ∧ Forall (λ w, w ≠ ".") added
    ∧ (length sequence' ≤ length sequence)%nat.
Proof.
  revert sequence i unigram.
  induction steps as [|steps IH]; intros sequence i unigram Hlen.
  - exists sequence, []. rewrite app_nil_r. simpl.
    rewrite lookup_ge_None_2 by lia. by split_and!.
  - simpl. destruct (sequence !! i) as [word|] eqn:Hi.
    + destruct (decide (word = ".")) as [->|Hword].
      * destruct (list_remove_elem "." sequence) as (seq2 & -> & Hlen2 & Hf2).
        { apply list_elem_of_lookup. eauto. }
        destruct (IH seq2 (S i) unigram) as (seq' & added & -> & Hf & Hadd & Hl);
          [lia|].
        exists seq', added. split_and!; [done|congruence|done|lia].
      * destruct (IH sequence (S i) (unigram ++ [word]))
          as (seq' & added & -> & Hf & Hadd & Hl); [lia|].
        exists seq', (word :: added). rewrite <-app_assoc.
        split_and!; [done|done|by constructor|done].
    + exists sequence, []. rewrite app_nil_r. by split_and!.
Qed.

Lemma period_loop_clean (steps : nat) (sequence : list string) (i : nat)
    (unigram : list string) :
  Forall (λ w, w ≠ ".") (drop i sequence) →
  (length sequence ≤ i + steps)%nat →
  period_loop_from steps sequence i unigram
  = Some (Ok (sequence, unigram ++ drop i sequence)).
Proof.
  revert i unigram. induction steps as [|steps IH]; intros i unigram Hclean Hlen.
  - simpl. rewrite lookup_ge_None_2, drop_ge, app_nil_r by lia. done.
  - simpl. destruct (sequence !! i) as [word|] eqn:Hi.
    + rewrite (drop_S _ _ _ Hi) in Hclean |- *.
      apply Forall_cons in Hclean as [Hword Hclean].
      rewrite decide_False by done. rewrite IH by (done || lia).
      by rewrite <-app_assoc.
    + apply lookup_ge_None in Hi. by rewrite drop_ge, app_nil_r by done.
Qed.

Lemma period_loop_prefix (steps : nat) (seen pre rest unigram : list string) :
  Forall (λ w, w ≠ ".") pre →
  period_loop_from (length pre + steps) (seen ++ pre ++ rest) (length seen) unigram
  = period_loop_from steps (seen ++ pre ++ rest) (length seen + length pre)
      (unigram ++ pre).
Proof.
  intros Hpre. revert seen unigram.
  induction Hpre as [|w pre Hw _ IH]; intros seen unigram.
  - simpl. by rewrite Nat.add_0_r, app_nil_r.
  - simpl. rewrite list_lookup_middle by done. rewrite decide_False by done.
    assert (Hseq : seen ++ w :: pre ++ rest = (seen ++ [w]) ++ pre ++ rest)
      by (by rewrite <-app_assoc).
    assert (Hlen : S (length seen) = length (seen ++ [w]))
      by (rewrite length_app; simpl; lia).
    rewrite Hseq, Hlen, IH, <-Hlen.
    f_equal; [lia|by rewrite <-app_assoc].
Qed.

(** X19. The loop always ends, and without raising: [remove] is only called
    on a word that is in the list. It takes nothing but periods out of the
    sequence, never makes it longer, and appends no period to [unigram]; on a
    sequence without a period it leaves the sequence as it is and appends
    all its words. *)
Theorem period_loop_safe (sequence unigram : list string) :
  ∃ sequence' added,
    period_loop sequence unigram = Some (Ok (sequence', unigram ++ added))
    ∧ filter (λ w, w ≠ ".") sequence' = filter (λ w, w ≠ ".") sequence
    ∧ Forall (λ w, w ≠ ".") added
    ∧ (length sequence' ≤ length sequence)%nat
    ∧ ("." ∉ sequence → sequence' = sequence ∧ added = sequence).
Proof.
  destruct (period_loop_invariant (length sequence) sequence 0 unigram)
    as (seq' & added & Hrun & Hf & Hadd & Hl); [lia|].
  exists seq', added. split_and!; try done.
  intros Hclean. unfold period_loop in Hrun.
  rewrite period_loop_clean in Hrun; [|by apply Forall_forall; intros w ? -> |lia].
  simpl in Hrun. injection Hrun as <- Happ.
  split; [done|]. by apply app_inv_head in Happ.
Qed.

Lemma period_loop_safe_witness :
  ("." ∉ ["we"; "hold"; "these"])
  ∧ period_loop ["we"; "hold"; "these"] ["u"]
    = Some (Ok (["we"; "hold"; "these"], ["u"; "we"; "hold"; "these"])).
Proof.
  assert (Hclean : "." ∉ ["we"; "hold"; "these"]) by by_evaluation.
  split; [exact Hclean|].
  destruct (period_loop_safe ["we"; "hold"; "these"] ["u"])
    as (sequence' & added & -> & _ & _ & _ & Hsame).
  by destruct (Hsame Hclean) as [-> ->].
Defined.

(** X20. Taking a word out of the list while walking it makes the walk skip
    the next word: when the sequence holds one period followed by a word [w]
    (and no other period, unless [w] is one), the period is removed, [w]
    stays in the sequence but is never examined, so it is not appended to
    [unigram], and stays in the sequence even when it is a period itself. *)
Theorem period_loop_skips_next (pre rest unigram : list string) (w : string) :
  "." ∉ pre → "." ∉ rest →
  period_loop (pre ++ "." :: w :: rest) unigram
  = Some (Ok (pre ++ w :: rest, unigram ++ pre ++ rest)).
Proof.
  intros Hpre Hrest.
  assert (Hpre' : Forall (λ x, x ≠ ".") pre) by (by apply Forall_forall; intros x ? ->).
  assert (Hrest' : Forall (λ x, x ≠ ".") rest)
    by (by apply Forall_forall; intros x ? ->).
  assert (Hwalk :
            period_loop_from (length pre + S (S (length rest)))
              (pre ++ "." :: w :: rest) 0 unigram
            = period_loop_from (S (S (length rest)))
                (pre ++ "." :: w :: rest) (length pre) (unigram ++ pre))
    by exact (period_loop_prefix (S (S (length rest))) [] pre
                ("." :: w :: rest) unigram Hpre').
  unfold period_loop. rewrite length_app. simpl length. rewrite Hwalk.
  clear Hwalk. rewrite period_loop_from_S.
  rewrite (list_lookup_middle pre (w :: rest) "." (length pre)) by done.
  rewrite decide_True by done.
  rewrite (list_remove_first "." pre (w :: rest) Hpre').
  rewrite period_loop_clean.
  - f_equal. f_equal. f_equal. rewrite <-app_assoc. f_equal.
    rewrite drop_app_ge by lia.
    replace (S (length pre) - length pre)%nat with 1%nat by lia. done.
  - rewrite drop_app_ge by lia.
    replace (S (length pre) - length pre)%nat with 1%nat by lia. done.
  - rewrite length_app. simpl. lia.
Qed.

Lemma period_loop_skips_next_witness :
  ("." ∉ ["a"]) ∧ ("." ∉ ["c"])
  ∧ period_loop ["a"; "."; "b"; "c"] ["u"]
    = Some (Ok (["a"; "b"; "c"], ["u"; "a"; "c"])).
Proof.
  assert (H1 : "." ∉ ["a"]) by by_evaluation.
  assert (H2 : "." ∉ ["c"]) by by_evaluation.
  split_and!; [exact H1|exact H2|].
  exact (period_loop_skips_next ["a"] ["c"] ["u"] "b" H1 H2).
Defined.

(** ** Lines without a sentence, lines of one sentence *)

Lemma lstrip_blank (s : string) : all_whitespace s = true → lstrip s = "".
Proof.
  induction s as [|c s IH]; [done|]. simpl.
  intros [-> Hs]%andb_true_iff. by apply IH.
Qed.

Lemma has_char_lstrip (c : ascii) (s : string) :
  has_char c s = false → has_char c (lstrip s) = false.
Proof.
  induction s as [|c' s IH]; [done|]. simpl.
  intros [Hc' Hs]%orb_false_iff.
  destruct (is_whitespace c'); [by apply IH|]. simpl. by rewrite Hc', Hs.
Qed.

Lemma has_char_rstrip (c : ascii) (s : string) :
  has_char c s = false → has_char c (rstrip s) = false.
Proof.
  induction s as [|c' s IH]; [done|]. simpl.
  intros [Hc' Hs]%orb_false_iff. specialize (IH Hs).
  destruct (rstrip s) as [|c'' kept].
  - destruct (is_whitespace c'); [done|]. simpl. by rewrite Hc'.
  - simpl in *. by rewrite Hc', IH.
Qed.

Lemma str_split_no_cut (sep : ascii) (s : string) :
  has_char sep s = false → str_split sep s = [s].
Proof.
  induction s as [|c s IH]; [done|]. simpl.
  intros [-> Hs]%orb_false_iff. by rewrite IH.
Qed.

(** X21. A line of whitespace only (an empty line, a line break alone) adds
    no sentence to the data. *)
Theorem load_data_skips_blank_lines (before after : list string) (line : string) :
  all_whitespace line = true →
  load_data (before ++ line :: after) = load_data (before ++ after).
Proof.
  intros Hblank. unfold load_data, strip.
  rewrite !fmap_app, fmap_cons, !concat_app, concat_cons, !filter_app.
  rewrite (lstrip_blank line Hblank). simpl rstrip. simpl str_split.
  by rewrite filter_cons_False by (by intros ?).
Qed.

Lemma load_data_skips_blank_lines_witness :
  all_whitespace (String "010"%char "") = true
  ∧ load_data ["one"; String "010"%char ""; "two"] = ["one"; "two"].
Proof.
  split; [reflexivity|].
  etrans; [|reflexivity].
  exact (load_data_skips_blank_lines ["one"] ["two"] (String "010"%char "")
           eq_refl).
Defined.

(** X22. A line that holds no period and is not blank gives exactly one
    sentence, the line without the whitespace around it. *)
Theorem load_data_line_without_period (line : string) :
  has_char "." line = false →
  strip line ≠ "" →
  load_data [line] = [strip line].
Proof.
  intros Hline Hne. unfold load_data. simpl. rewrite app_nil_r.
  rewrite str_split_no_cut by (by apply has_char_rstrip, has_char_lstrip).
  by rewrite filter_cons_True, filter_nil.
Qed.

Lemma load_data_line_without_period_witness :
  has_char "." "  We hold these truths " = false
  ∧ strip "  We hold these truths " ≠ ""
  ∧ load_data ["  We hold these truths "] = ["We hold these truths"].
Proof.
  split_and!; [reflexivity|discriminate|].
  rewrite (load_data_line_without_period "  We hold these truths ");
    [reflexivity|reflexivity|discriminate].
Defined.

(** ** The counts of the vocabulary *)

(** X23. In the vocabulary of a trained model every token other than the
    unknown marker has a count of at least two. *)
Theorem vocabulary_counts_at_least_two (train : list string) (n : Z) (lambda : Q)
    (M : LanguageModel.t) (t : string) (c : nat) :
  LanguageModel.__init__ train n lambda = Ok M →
  LanguageModel.vocab M !! t = Some c →
  t ≠ "<UNK>" →
  (2 ≤ c)%nat.
Proof.
  intros Hinit Ht Hne.
  destruct (trained_fields train n lambda M Hinit) as (_ & _ & _ & Hv & _).
  rewrite Hv in Ht. apply lookup_FreqDist in Ht as [Hin ->].
  rewrite preprocess_raw_tokens in *. by apply replace_singletons_twice.
Qed.

Lemma vocabulary_counts_at_least_two_witness :
  ∃ M, LanguageModel.__init__ ["the cat sat"; "the dog sat"] 2 1 = Ok M
       ∧ LanguageModel.vocab M !! "sat" = Some 2%nat
       ∧ "sat" ≠ "<UNK>"
       ∧ (2 ≤ 2)%nat.
Proof.
  build_model M Hinit. exists M.
  assert (Hsat : LanguageModel.vocab M !! "sat" = Some 2%nat).
  { pose proof Hinit as Hrun. vm_compute in Hrun. by injection Hrun as <-. }
  split_and!; [reflexivity|exact Hsat|discriminate|].
  apply (vocabulary_counts_at_least_two _ _ _ _ "sat" 2%nat Hinit Hsat).
  discriminate.
Defined.

(** ** The probabilities stored for one context *)

Section Sums.
Context `{EqDecision A}.
Implicit Types (x : A) (l ks : list A).





End Sums.

Section WindowsOfContext.
Context `{EqDecision A}.
Implicit Types (l g ctx : list A) (k : nat).


Lemma elem_of_windows_items k l g x : g ∈ windows k l → x ∈ g → x ∈ l.
Proof.
  induction l as [|y l IH]; [by inversion 1|].
  cbn [windows]. case_decide; [|by inversion 1].
  intros [->|Hg]%elem_of_cons Hx.
  - by apply (subseteq_take k (y :: l)).
  - right. by apply IH.
Qed.

End WindowsOfContext.





(** ** The bigrams of the last cell *)

Lemma length_windows {A} (k : nat) (l : list A) :
  (0 < k)%nat → length (windows k l) = (S (length l) - k)%nat.
Proof.
  intros Hk. induction l as [|x l IH]; [simpl; lia|].
  cbn [windows]. case_decide as Hlen; simpl in *; [rewrite IH|]; lia.
Qed.

(** X25. The bigrams of the last cell are built after the stop words are
    taken out: there is one for each word left but the last, each is a pair,
    and none holds a stop word. *)
Theorem bigram_sw_removed_has_no_stop_word (stop_words : gset string)
    (unigram : list string) :
  ∃ bigrams,
    bigram_sw_removed stop_words unigram = Ok bigrams
    ∧ length bigrams = (length (unigram_sw_removed stop_words unigram) - 1)%nat
    ∧ Forall (λ g, length g = 2%nat ∧ Forall (λ w, w ∉ stop_words) g) bigrams.
Proof.
  unfold bigram_sw_removed. rewrite ngrams_pos by lia.
  change (Z.to_nat 2) with 2%nat. eexists. split; [done|]. split.
  - rewrite length_windows by lia. lia.
  - apply Forall_forall. intros g Hg. split.
    + by apply elem_of_windows_length in Hg.
    + apply Forall_forall. intros w Hw.
      pose proof (elem_of_windows_items _ _ _ _ Hg Hw) as Hin.
      by apply list_elem_of_filter in Hin as [? _].
Qed.
